(** * Outline extraction for tile images

    A shallow embedding of [make_outline] from
    [assets/tiles/source/make_outline.py] and the properties of the
    outline it computes.

    The script opens [tile_<color>.png], converts it to RGBA, walks the
    pixel grid row by row and copies to a fresh transparent image every
    opaque pixel that has a transparent or missing 4-neighbour.  The PNG
    codec ([Image.open], [convert], [save]) and the console output are
    not part of the embedding: [make_outline] below starts from the
    decoded RGBA image and returns the outline image that the script
    hands to [save]. *)

From Stdlib Require Import ZArith Lia Bool Ascii.
From stdpp Require Import base tactics option numbers list strings gmap.

Local Open Scope Z_scope.

(** ** Pixels and images *)

(** An RGBA pixel is the 4-tuple [(r, g, b, a)] handed out by the pixel
    access object; [p[3]] of the script is [alpha p]. *)
Record pixel : Type := RGBA { red : Z; green : Z; blue : Z; alpha : Z }.

#[global] Instance pixel_eq_dec : EqDecision pixel.
Proof. solve_decision. Defined.

(** The fill colour [(0, 0, 0, 0)] of [Image.new]. *)
Definition transparent : pixel := RGBA 0 0 0 0.

Definition channel_ok (c : Z) : bool := (0 <=? c) && (c <=? 255).

Definition pixel_ok (p : pixel) : bool :=
  channel_ok (red p) && channel_ok (green p) &&
  channel_ok (blue p) && channel_ok (alpha p).

(** A decoded image: its size and its pixel buffer, row after row. *)
Record Image : Type := mkImage { xsize : Z; ysize : Z; im : list pixel }.

#[global] Instance Image_eq_dec : EqDecision Image.
Proof. solve_decision. Defined.

(** [img.size] *)
Definition img_size (img : Image) : Z * Z := (xsize img, ysize img).

(** A well-formed image has non-negative dimensions, one buffer entry
    per coordinate and 8-bit channels. *)
Definition valid_image (img : Image) : bool :=
  (0 <=? xsize img) && (0 <=? ysize img) &&
  bool_decide (length (im img) = Z.to_nat (xsize img * ysize img)) &&
  forallb pixel_ok (im img).

(** [Image.new("RGBA", (w, h), fill)] *)
Definition Image_new (w h : Z) (fill : pixel) : Image :=
  mkImage w h (replicate (Z.to_nat (w * h)) fill).

(** Position of [(x, y)] in the buffer. *)
Definition offset_of (img : Image) (x y : Z) : nat :=
  Z.to_nat (y * xsize img + x).

(** Pillow's pixel access: a negative index counts from the far side,
    and an index that is still outside the image raises [IndexError]
    ([None] here). *)
Definition wrap_index (n i : Z) : Z := if i <? 0 then n + i else i.

Definition index_ok (img : Image) (x y : Z) : bool :=
  (0 <=? x) && (x <? xsize img) && (0 <=? y) && (y <? ysize img).

(** [pixels[x, y]] *)
Definition getpixel (img : Image) (x y : Z) : option pixel :=
  let x := wrap_index (xsize img) x in
  let y := wrap_index (ysize img) y in
  if index_ok img x y then im img !! offset_of img x y else None.

(** [pixels[x, y] = v] *)
Definition putpixel (img : Image) (x y : Z) (v : pixel) : option Image :=
  let x := wrap_index (xsize img) x in
  let y := wrap_index (ysize img) y in
  if index_ok img x y
  then Some (mkImage (xsize img) (ysize img) (<[offset_of img x y := v]> (im img)))
  else None.

(** The object returned by [img.load()], as far as reading goes. *)
Definition PixelAccess : Type := Z → Z → option pixel.

Definition load (img : Image) : PixelAccess := getpixel img.

(** ** Control flow *)

(** [range(n)] *)
Definition range (n : Z) : list Z := seqZ 0 n.

(** A [for] loop whose body may raise: the state is threaded through the
    iterations and the first error ends the loop. *)
Fixpoint for_each {A S : Type} (l : list A) (body : S → A → option S)
    (s : S) : option S :=
  match l with
  | [] => Some s
  | a :: l' => s' ← body s a; for_each l' body s'
  end.

(** ** The script *)

(** The neighbour offsets, in the order the script tries them. *)
Definition offsets : list (Z * Z) := [(-1, 0); (1, 0); (0, -1); (0, 1)].

(** The inner [for dx, dy in ...] loop with its [break]; the result is
    the value of [edge] after the loop.  The [or] chain is evaluated
    left to right, so [pixels[nx, ny]] is read only when the four
    comparisons before it are all false. *)
Fixpoint find_edge (pixels : PixelAccess) (w h x y : Z)
    (offs : list (Z * Z)) : option bool :=
  match offs with
  | [] => Some false
  | (dx, dy) :: rest =>
      let nx := x + dx in
      let ny := y + dy in
      if (nx <? 0) || (nx >=? w) || (ny <? 0) || (ny >=? h) then Some true
      else
        n ← pixels nx ny;
        if alpha n =? 0 then Some true
        else find_edge pixels w h x y rest
  end.

(** One iteration of the [for x] loop, at column [x] of row [y]. *)
Definition visit (pixels : PixelAccess) (w h : Z) (outline_img : Image)
    (x y : Z) : option Image :=
  p ← pixels x y;
  if alpha p =? 0 then Some outline_img
  else
    edge ← find_edge pixels w h x y offsets;
    if (edge : bool) then
      v ← pixels x y;
      putpixel outline_img x y v
    else Some outline_img.

(** The two nested loops over [range(h)] and [range(w)]. *)
Definition outline_loop (pixels : PixelAccess) (w h : Z)
    (outline_img : Image) : option Image :=
  for_each (range h)
    (λ out y, for_each (range w) (λ out x, visit pixels w h out x y) out)
    outline_img.

(** [make_outline], from the decoded image to the image that is saved.
    [None] stands for an exception escaping the loops. *)
Definition make_outline (img : Image) : option Image :=
  let '(w, h) := img_size img in
  let pixels := load img in
  let outline_img := Image_new w h transparent in
  outline_loop pixels w h outline_img.


(** ** The files and the driver *)


(** [OUTLINE_DIR = SRC_DIR]; [SRC_DIR] is computed from the location of
    the script and is a parameter here. *)
Definition OUTLINE_DIR (SRC_DIR : string) : string := SRC_DIR.

(** [b.startswith("/")] *)
Definition starts_with_sep (b : string) : bool :=
  match b with
  | String c _ => bool_decide (c = "/"%char)
  | EmptyString => false
  end.

(** [path.endswith("/")] *)
Fixpoint ends_with_sep (path : string) : bool :=
  match path with
  | EmptyString => false
  | String c EmptyString => bool_decide (c = "/"%char)
  | String _ rest => ends_with_sep rest
  end.

(** [not path] *)
Definition is_empty (path : string) : bool :=
  match path with
  | EmptyString => true
  | String _ _ => false
  end.

(** [os.path.join(a, b)] with POSIX separators. *)
Definition path_join (a b : string) : string :=
  if starts_with_sep b then b
  else if is_empty a || ends_with_sep a then a +:+ b
  else a +:+ "/" +:+ b.

(** [src_path] and [out_path] of [make_outline(color)]. *)
Definition src_path (SRC_DIR color : string) : string :=
  path_join SRC_DIR ("tile_" +:+ color +:+ ".png").

Definition out_path (SRC_DIR color : string) : string :=
  path_join (OUTLINE_DIR SRC_DIR) ("outline_" +:+ color +:+ ".png").









(** The directory part that [path_join] puts in front of a relative
    name. *)
Definition dir_prefix (a : string) : string :=
  if is_empty a || ends_with_sep a then a else a +:+ "/".



(** ** Reading the outline off the source image *)

(** [(x, y)] is a coordinate of a [w] by [h] grid. *)
Definition in_bounds (w h x y : Z) : Prop := 0 <= x < w ∧ 0 <= y < h.

(** The part of well-formedness the pixel accessors rely on. *)
Definition shape_ok (img : Image) : Prop :=
  0 <= xsize img ∧ 0 <= ysize img ∧
  length (im img) = Z.to_nat (xsize img * ysize img).

(** The neighbour position [(nx, ny)] is outside the image or holds a
    pixel with alpha 0. *)
Definition open_at (img : Image) (nx ny : Z) : Prop :=
  ¬ in_bounds (xsize img) (ysize img) nx ny ∨
  ∃ n, getpixel img nx ny = Some n ∧ alpha n = 0.

(** Some axis-aligned neighbour of [(x, y)] is open. *)
Definition on_edge (img : Image) (x y : Z) : Prop :=
  ∃ dx dy, (dx, dy) ∈ offsets ∧ open_at img (x + dx) (y + dy).

(** Boolean versions, used to compute the expected outline. *)
Definition open_atb (img : Image) (nx ny : Z) : bool :=
  negb (index_ok img nx ny) ||
  match getpixel img nx ny with
  | Some n => alpha n =? 0
  | None => true
  end.

Definition on_edgeb (img : Image) (x y : Z) : bool :=
  existsb (λ d : Z * Z, open_atb img (x + d.1) (y + d.2)) offsets.

(** The pixel is opaque and on the edge of the shape: the script copies it. *)
Definition kept (img : Image) (x y : Z) : bool :=
  match getpixel img x y with
  | Some p => negb (alpha p =? 0) && on_edgeb img x y
  | None => false
  end.

(** The coordinates in the order the nested loops visit them. *)
Definition coords (w h : Z) : list (Z * Z) :=
  y ← range h; x ← range w; [(x, y)].

(** The loop body run over an arbitrary sequence of coordinates. *)
Definition outline_over (pixels : PixelAccess) (w h : Z)
    (cs : list (Z * Z)) (outline_img : Image) : option Image :=
  for_each cs (λ out c, visit pixels w h out c.1 c.2) outline_img.

(** The pixel at [(x, y)] exists and has non-zero alpha. *)
Definition is_opaque (img : Image) (x y : Z) : bool :=
  match getpixel img x y with
  | Some p => negb (alpha p =? 0)
  | None => false
  end.

(** The non-transparent coordinates of an image. *)
Definition opaque_set (img : Image) : gset (Z * Z) :=
  list_to_set
    (filter (λ c, is_opaque img c.1 c.2 = true)
            (coords (xsize img) (ysize img))).

(** A pixel access object reads [img] correctly at every coordinate of
    the image; nothing is said about other indices. *)
Definition reads (pixels : PixelAccess) (img : Image) : Prop :=
  ∀ x y, in_bounds (xsize img) (ysize img) x y →
         pixels x y = getpixel img x y.

(** [out] with the pixel at [(x, y)] replaced by [p]. *)
Definition paint (out : Image) (x y : Z) (p : pixel) : Image :=
  mkImage (xsize out) (ysize out) (<[offset_of out x y := p]> (im out)).

(** Every pixel of the image has non-zero alpha. *)
Definition solid (img : Image) : bool :=
  forallb (λ p, negb (alpha p =? 0)) (im img).

(** [(x, y)] is the top-left corner of a 2x2 block of opaque pixels:
    the shape is more than one pixel thick there in both directions. *)
Definition thick_at (img : Image) (x y : Z) : bool :=
  is_opaque img x y && is_opaque img (x + 1) y &&
  is_opaque img x (y + 1) && is_opaque img (x + 1) (y + 1).

(** [(x, y)] is opaque and all four neighbours are inside the image and
    opaque. *)
Definition core_at (img : Image) (x y : Z) : bool :=
  is_opaque img x y && negb (on_edgeb img x y).

(** A 3x3 image whose only pixel with non-zero alpha is the centre. *)
Definition lone_center (img : Image) : bool :=
  bool_decide (xsize img = 3) && bool_decide (ysize img = 3) &&
  forallb (λ c : Z * Z,
             bool_decide (is_opaque img c.1 c.2 = bool_decide (c = (1, 1))))
          (coords 3 3).

(** A pixel access that raises at every index outside the image,
    negative ones included. *)
Definition strict_load (img : Image) : PixelAccess :=
  λ x y, if index_ok img x y then im img !! offset_of img x y else None.

(** ** Images built from other images *)

(** The pixel at [(x, y)] when the image is continued by transparent
    pixels outside its bounds. *)
Definition pixel_at (img : Image) (x y : Z) : pixel :=
  if index_ok img x y
  then default transparent (im img !! offset_of img x y)
  else transparent.

(** [(x, y)] is inside the image and opaque there. *)
Definition opaque_at (img : Image) (x y : Z) : bool :=
  index_ok img x y && is_opaque img x y.

(** The [w] by [h] image whose pixel at [(x, y)] is [f x y]. *)
Definition image_of (w h : Z) (f : Z → Z → pixel) : Image :=
  mkImage w h ((λ c : Z * Z, f c.1 c.2) <$> coords w h).

(** The image with a transparent frame one pixel wide around it. *)
Definition pad (img : Image) : Image :=
  image_of (xsize img + 2) (ysize img + 2)
           (λ x y, pixel_at img (x - 1) (y - 1)).

(** The image mirrored left to right. *)
Definition mirror (img : Image) : Image :=
  image_of (xsize img) (ysize img)
           (λ x y, pixel_at img (xsize img - 1 - x) y).

(** The image with rows and columns exchanged. *)
Definition transpose (img : Image) : Image :=
  image_of (ysize img) (xsize img) (λ x y, pixel_at img y x).

(** The image turned by a quarter turn. *)
Definition rotate (img : Image) : Image := mirror (transpose img).

(** Two images of the same size with the same opaque coordinates. *)
Definition same_mask (a b : Image) : bool :=
  bool_decide (xsize a = xsize b) && bool_decide (ysize a = ysize b) &&
  forallb (λ c : Z * Z,
             bool_decide (is_opaque a c.1 c.2 = is_opaque b c.1 c.2))
          (coords (xsize a) (ysize a)).

(** ** Test images *)

Definition red_px : pixel := RGBA 255 0 0 255.

(** Fully transparent, but with the red channel set. *)
Definition tinted_px : pixel := RGBA 255 0 0 0.

(** A solid 3x3 tile. *)
Definition solid3 : Image := mkImage 3 3 (replicate 9 red_px).

(** A 3x3 opaque block in the middle of a 5x5 transparent image. *)
Definition block5 : Image :=
  let t := transparent in
  let r := red_px in
  mkImage 5 5 [t; t; t; t; t;
               t; r; r; r; t;
               t; r; r; r; t;
               t; r; r; r; t;
               t; t; t; t; t].

(** The image without pixels. *)
Definition empty_image : Image := mkImage 0 0 [].

(** One opaque pixel in the middle of a 3x3 image of [(0, 0, 0, 0)]. *)
Definition dot3 : Image :=
  let t := transparent in
  mkImage 3 3 [t; t; t;
               t; red_px; t;
               t; t; t].

(** The same, except that the transparent top-left pixel keeps a colour. *)
Definition tinted_dot3 : Image :=
  let t := transparent in
  mkImage 3 3 [tinted_px; t; t;
               t; red_px; t;
               t; t; t].

(** Every pixel of the image has alpha 0. *)
Definition clear (img : Image) : bool :=
  forallb (λ p, alpha p =? 0) (im img).

(** A 2x2 image of transparent pixels that carry colour. *)
Definition tinted2 : Image := mkImage 2 2 (replicate 4 tinted_px).

(** A solid image two pixels wide and three high. *)
Definition solid2x3 : Image := mkImage 2 3 (replicate 6 red_px).

Definition green_px : pixel := RGBA 0 200 0 128.

(** The shape of [block5] in another colour. *)
Definition green_block5 : Image :=
  let t := tinted_px in
  let g := green_px in
  mkImage 5 5 [t; t; t; t; t;
               t; g; g; g; t;
               t; g; g; g; t;
               t; g; g; g; t;
               t; t; t; t; t].

(** An L-shaped piece, to tell left from right and rows from columns. *)
Definition ell : Image :=
  let t := transparent in
  let r := red_px in
  mkImage 3 4 [r; t; t;
               r; t; t;
               r; r; r;
               r; r; r].

(** A directory and two worlds: one with a tile for every colour, one
    with the tiles of the first two colours only. *)
Definition tiles_dir : string := "/repo/assets/tiles".




(** ** Sanity checks *)

Example src_path_blue :
  src_path tiles_dir "blue" = "/repo/assets/tiles/tile_blue.png"%string.
Proof. reflexivity. Qed.

Example out_path_blue :
  out_path tiles_dir "blue" = "/repo/assets/tiles/outline_blue.png"%string.
Proof. reflexivity. Qed.

Example solid3_outline :
  make_outline solid3 =
  Some (mkImage 3 3 [red_px; red_px; red_px;
                     red_px; transparent; red_px;
                     red_px; red_px; red_px]).
Proof. reflexivity. Qed.

Example block5_outline :
  make_outline block5 =
  Some (mkImage 5 5
          [transparent; transparent; transparent; transparent; transparent;
           transparent; red_px; red_px; red_px; transparent;
           transparent; red_px; transparent; red_px; transparent;
           transparent; red_px; red_px; red_px; transparent;
           transparent; transparent; transparent; transparent; transparent]).
Proof. reflexivity. Qed.

Example tinted_dot3_outline : make_outline tinted_dot3 = Some dot3.
Proof. reflexivity. Qed.

Example lone_center_tinted : lone_center tinted_dot3 = true.
Proof. reflexivity. Qed.

(** ** Pixel access inside the image *)

Lemma valid_image_shape img : valid_image img = true → shape_ok img.
Proof.
  unfold valid_image, shape_ok. intros H.
  repeat (apply andb_prop in H as [H ?]).
  apply bool_decide_eq_true in H1. lia.
Qed.

Lemma valid_image_pixels img p :
  valid_image img = true → p ∈ im img → pixel_ok p = true.
Proof.
  unfold valid_image. intros H Hp.
  apply andb_prop in H as [_ H].
  rewrite forallb_forall in H. apply H. by apply list_elem_of_In.
Qed.

Lemma index_ok_true img x y :
  index_ok img x y = true ↔ in_bounds (xsize img) (ysize img) x y.
Proof. unfold index_ok, in_bounds. lia. Qed.

Lemma index_ok_in img x y :
  in_bounds (xsize img) (ysize img) x y → index_ok img x y = true.
Proof. apply index_ok_true. Qed.

Lemma wrap_index_nonneg n i : 0 <= i → wrap_index n i = i.
Proof. unfold wrap_index. intros. destruct (Z.ltb_spec i 0); [lia | done]. Qed.

Lemma offset_lt img x y :
  shape_ok img → in_bounds (xsize img) (ysize img) x y →
  (offset_of img x y < length (im img))%nat.
Proof.
  unfold shape_ok, in_bounds, offset_of. intros (Hw & Hh & ->) [Hx Hy].
  apply Z2Nat.inj_lt; nia.
Qed.

Lemma offset_inj img x y x' y' :
  in_bounds (xsize img) (ysize img) x y →
  in_bounds (xsize img) (ysize img) x' y' →
  offset_of img x y = offset_of img x' y' → x = x' ∧ y = y'.
Proof.
  unfold in_bounds, offset_of. intros [Hx Hy] [Hx' Hy'] Heq.
  apply Z2Nat.inj in Heq; [| nia | nia].
  assert (y = y') by nia. subst. lia.
Qed.

Lemma getpixel_in img x y :
  in_bounds (xsize img) (ysize img) x y →
  getpixel img x y = im img !! offset_of img x y.
Proof.
  intros Hin. unfold getpixel.
  destruct Hin as [Hx Hy].
  rewrite !wrap_index_nonneg by lia.
  by rewrite index_ok_in.
Qed.

Lemma getpixel_is_Some img x y :
  shape_ok img → in_bounds (xsize img) (ysize img) x y →
  is_Some (getpixel img x y).
Proof.
  intros Hs Hin. rewrite getpixel_in by done.
  apply lookup_lt_is_Some. by apply offset_lt.
Qed.

Lemma putpixel_in img x y v :
  in_bounds (xsize img) (ysize img) x y →
  putpixel img x y v =
  Some (mkImage (xsize img) (ysize img) (<[offset_of img x y := v]> (im img))).
Proof.
  intros Hin. unfold putpixel.
  destruct Hin as [Hx Hy].
  rewrite !wrap_index_nonneg by lia.
  by rewrite index_ok_in.
Qed.

Lemma getpixel_insert img x y v x' y' :
  shape_ok img →
  in_bounds (xsize img) (ysize img) x y →
  in_bounds (xsize img) (ysize img) x' y' →
  getpixel (mkImage (xsize img) (ysize img)
              (<[offset_of img x y := v]> (im img))) x' y' =
  if decide ((x, y) = (x', y')) then Some v else getpixel img x' y'.
Proof.
  intros Hs Hin Hin'.
  rewrite !getpixel_in by done. simpl.
  change (offset_of (mkImage (xsize img) (ysize img)
            (<[offset_of img x y:=v]> (im img))) x' y')
    with (offset_of img x' y').
  case_decide as Heq.
  - injection Heq as <- <-. apply list_lookup_insert_eq. by apply offset_lt.
  - apply list_lookup_insert_ne. intros Hoff.
    apply offset_inj in Hoff as [-> ->]; done.
Qed.

(** Every buffer position is the position of a coordinate. *)
Lemma offset_surj img i :
  shape_ok img → (i < length (im img))%nat →
  ∃ x y, in_bounds (xsize img) (ysize img) x y ∧ offset_of img x y = i.
Proof.
  intros (Hw & Hh & Hlen) Hi. rewrite Hlen in Hi.
  assert (0 < xsize img) by (destruct (decide (0 < xsize img)); [done | nia]).
  exists (Z.of_nat i mod xsize img), (Z.of_nat i / xsize img).
  split.
  - split; [apply Z.mod_pos_bound; lia |].
    split; [apply Z.div_pos; lia |].
    apply Z.div_lt_upper_bound; [lia |]. nia.
  - unfold offset_of.
    rewrite (Z.mul_comm _ (xsize img)), <- Z.div_mod by lia. lia.
Qed.

(** Two images of the same shape that agree at every coordinate are equal. *)
Lemma image_ext a b :
  shape_ok a → shape_ok b →
  xsize a = xsize b → ysize a = ysize b →
  (∀ x y, in_bounds (xsize a) (ysize a) x y →
          getpixel a x y = getpixel b x y) →
  a = b.
Proof.
  intros Ha Hb Hw Hh Hpt.
  assert (Hlen : length (im a) = length (im b)).
  { destruct Ha as (_ & _ & ->), Hb as (_ & _ & ->). by rewrite Hw, Hh. }
  destruct a as [w h la], b as [w' h' lb]. simpl in *. subst w' h'.
  f_equal. apply list_eq. intros i.
  destruct (decide (i < length la)%nat) as [Hi | Hi].
  - destruct (offset_surj (mkImage w h la) i Ha Hi) as (x & y & Hin & Hoff).
    specialize (Hpt x y Hin). rewrite !getpixel_in in Hpt by done.
    unfold offset_of in *. simpl in *. by rewrite Hoff in Hpt.
  - rewrite !lookup_ge_None_2; [done | lia | lia].
Qed.

(** ** The loops *)

Lemma for_each_app {A S : Type} (l1 l2 : list A) (body : S → A → option S) s :
  for_each (l1 ++ l2) body s = s' ← for_each l1 body s; for_each l2 body s'.
Proof.
  revert s. induction l1 as [| a l1 IH]; intros s; simpl; [done |].
  destruct (body s a) as [s1 |]; simpl; [apply IH | done].
Qed.

Lemma for_each_ext {A S : Type} (l : list A) (f g : S → A → option S) s :
  (∀ s a, a ∈ l → f s a = g s a) → for_each l f s = for_each l g s.
Proof.
  revert s. induction l as [| a l IH]; intros s Hfg; simpl; [done |].
  rewrite Hfg by apply list_elem_of_here.
  destruct (g s a) as [s1 |]; simpl; [| done].
  apply IH. intros s2 b Hb. apply Hfg. by apply list_elem_of_further.
Qed.

(** A loop over a flattened list is the nested loop. *)
Lemma for_each_bind {A B S : Type} (l : list A) (k : A → list B)
    (body : S → B → option S) s :
  for_each (l ≫= k) body s = for_each l (λ s a, for_each (k a) body s) s.
Proof.
  revert s. induction l as [| a l IH]; intros s; [done |].
  rewrite bind_cons, for_each_app. simpl.
  destruct (for_each (k a) body s) as [s1 |]; simpl; [apply IH | done].
Qed.

Lemma outline_loop_over pixels w h out :
  outline_loop pixels w h out = outline_over pixels w h (coords w h) out.
Proof.
  unfold outline_loop, outline_over, coords.
  rewrite for_each_bind. apply for_each_ext. intros s y _.
  rewrite for_each_bind. apply for_each_ext. intros s' x _. simpl.
  by destruct (visit pixels w h s' x y).
Qed.

Lemma elem_of_coords w h x y : (x, y) ∈ coords w h ↔ in_bounds w h x y.
Proof.
  unfold coords, range, in_bounds. rewrite list_elem_of_bind. split.
  - intros (y' & Hx & Hy). apply list_elem_of_bind in Hx as (x' & Hc & Hx).
    apply list_elem_of_singleton in Hc. injection Hc as -> ->.
    apply elem_of_seqZ in Hx, Hy. lia.
  - intros [Hx Hy]. exists y. split; [| apply elem_of_seqZ; lia].
    apply list_elem_of_bind. exists x.
    split; [apply list_elem_of_singleton; done | apply elem_of_seqZ; lia].
Qed.

(** ** One iteration *)


Lemma load_reads img : reads (load img) img.
Proof. by intros x y _. Qed.


Lemma paint_shape out x y p : shape_ok out → shape_ok (paint out x y p).
Proof. unfold shape_ok, paint. simpl. by rewrite length_insert. Qed.

Lemma out_of_bounds_test img nx ny :
  (nx <? 0) || (nx >=? xsize img) || (ny <? 0) || (ny >=? ysize img) =
  negb (index_ok img nx ny).
Proof. unfold index_ok. rewrite !Z.geb_leb. lia. Qed.

Lemma find_edge_reads pixels img x y offs :
  shape_ok img → reads pixels img →
  find_edge pixels (xsize img) (ysize img) x y offs =
  Some (existsb (λ d : Z * Z, open_atb img (x + d.1) (y + d.2)) offs).
Proof.
  intros Hs Hr. induction offs as [| [dx dy] rest IH]; simpl; [done |].
  rewrite out_of_bounds_test. unfold open_atb at 1.
  destruct (index_ok img (x + dx) (y + dy)) eqn:Hok; simpl; [| done].
  apply index_ok_true in Hok. rewrite (Hr _ _ Hok).
  destruct (getpixel_is_Some img _ _ Hs Hok) as [n ->]. simpl.
  by destruct (alpha n =? 0).
Qed.

Lemma visit_reads pixels img out x y :
  shape_ok img → reads pixels img →
  in_bounds (xsize img) (ysize img) x y →
  xsize out = xsize img → ysize out = ysize img →
  ∃ p, getpixel img x y = Some p ∧
       visit pixels (xsize img) (ysize img) out x y =
       Some (if kept img x y then paint out x y p else out).
Proof.
  intros Hs Hr Hin Hw Hh.
  destruct (getpixel_is_Some img x y Hs Hin) as [p Hp].
  exists p. split; [done |].
  unfold visit, kept.
  rewrite (Hr _ _ Hin), Hp, (find_edge_reads pixels img) by done.
  fold (on_edgeb img x y). cbn [mbind option_bind].
  destruct (alpha p =? 0); [done |].
  destruct (on_edgeb img x y); [| done].
  apply putpixel_in. by rewrite Hw, Hh.
Qed.

(** ** The whole pass *)

(** Running the body over in-bounds coordinates [cs] never fails; it
    overwrites exactly the kept coordinates of [cs] with the source
    pixel and leaves the rest of [out] alone. *)
Lemma outline_over_spec pixels img cs out :
  shape_ok img → reads pixels img →
  shape_ok out → xsize out = xsize img → ysize out = ysize img →
  Forall (λ c, in_bounds (xsize img) (ysize img) c.1 c.2) cs →
  ∃ out',
    outline_over pixels (xsize img) (ysize img) cs out = Some out' ∧
    shape_ok out' ∧ xsize out' = xsize img ∧ ysize out' = ysize img ∧
    ∀ x y, in_bounds (xsize img) (ysize img) x y →
      getpixel out' x y =
      if bool_decide ((x, y) ∈ cs) && kept img x y
      then getpixel img x y else getpixel out x y.
Proof.
  intros Hs Hr Ho Hw Hh Hcs. revert out Ho Hw Hh.
  induction Hcs as [| [cx cy] cs Hc Hcs IH]; intros out Ho Hw Hh.
  - exists out. by split_and!.
  - simpl in Hc. unfold outline_over. simpl.
    destruct (visit_reads pixels img out cx cy Hs Hr Hc Hw Hh)
      as (p & Hp & ->). simpl.
    set (out1 := if kept img cx cy then paint out cx cy p else out).
    assert (Ho1 : shape_ok out1).
    { unfold out1. destruct (kept img cx cy); [by apply paint_shape | done]. }
    assert (Hw1 : xsize out1 = xsize img).
    { unfold out1. by destruct (kept img cx cy). }
    assert (Hh1 : ysize out1 = ysize img).
    { unfold out1. by destruct (kept img cx cy). }
    destruct (IH out1 Ho1 Hw1 Hh1) as (out' & Hrun & Ho' & Hw' & Hh' & Hpt).
    exists out'. unfold outline_over in Hrun. rewrite Hrun.
    split_and!; try done.
    intros x y Hin. rewrite (Hpt x y Hin).
    assert (Hone : getpixel out1 x y =
              if bool_decide ((x, y) = (cx, cy)) && kept img x y
              then getpixel img x y else getpixel out x y).
    { unfold out1. case_bool_decide as Heq.
      - injection Heq as -> ->. simpl.
        destruct (kept img cx cy); [| done].
        unfold paint. rewrite getpixel_insert; [| done | by rewrite Hw, Hh ..].
        by rewrite decide_True, Hp.
      - simpl. destruct (kept img cx cy); [| done].
        unfold paint. rewrite getpixel_insert; [| done | by rewrite Hw, Hh ..].
        rewrite decide_False; [done | congruence]. }
    rewrite Hone.
    destruct (kept img x y); rewrite ?andb_true_r, ?andb_false_r; [| done].
    destruct (decide ((x, y) ∈ cs)) as [Hmem | Hmem].
    { rewrite (bool_decide_eq_true_2 _ Hmem).
      rewrite bool_decide_eq_true_2; [done | by apply list_elem_of_further]. }
    rewrite (bool_decide_eq_false_2 _ Hmem).
    destruct (decide ((x, y) = (cx, cy))) as [Heq | Hne].
    { rewrite (bool_decide_eq_true_2 _ Heq).
      rewrite bool_decide_eq_true_2; [done | rewrite Heq; apply list_elem_of_here]. }
    rewrite (bool_decide_eq_false_2 _ Hne).
    rewrite bool_decide_eq_false_2; [done |].
    intros [|]%elem_of_cons; done.
Qed.

Lemma Image_new_shape w h fill :
  0 <= w → 0 <= h → shape_ok (Image_new w h fill).
Proof.
  intros Hw Hh. unfold shape_ok, Image_new. simpl.
  by rewrite length_replicate.
Qed.

Lemma getpixel_new w h fill x y :
  0 <= w → 0 <= h → in_bounds w h x y →
  getpixel (Image_new w h fill) x y = Some fill.
Proof.
  intros Hw Hh Hin.
  destruct (getpixel_is_Some (Image_new w h fill) x y
              (Image_new_shape w h fill Hw Hh) Hin) as [q Hq].
  rewrite Hq. rewrite getpixel_in in Hq by done. simpl in Hq.
  apply lookup_replicate in Hq as [-> _]. done.
Qed.

(** The script run with any pixel access that reads the source
    correctly inside the image, over any sequence of in-bounds
    coordinates that covers the image. *)
Lemma outline_over_cover pixels img cs :
  shape_ok img → reads pixels img →
  Forall (λ c, in_bounds (xsize img) (ysize img) c.1 c.2) cs →
  (∀ x y, in_bounds (xsize img) (ysize img) x y → (x, y) ∈ cs) →
  ∃ out,
    outline_over pixels (xsize img) (ysize img) cs
      (Image_new (xsize img) (ysize img) transparent) = Some out ∧
    shape_ok out ∧ xsize out = xsize img ∧ ysize out = ysize img ∧
    ∀ x y, in_bounds (xsize img) (ysize img) x y →
      getpixel out x y =
      if kept img x y then getpixel img x y else Some transparent.
Proof.
  intros Hs Hr Hcs Hall.
  pose proof Hs as (Hw & Hh & _).
  destruct (outline_over_spec pixels img cs
              (Image_new (xsize img) (ysize img) transparent))
    as (out & Hrun & Ho & Hw' & Hh' & Hpt);
    [done | done | by apply Image_new_shape | done | done | done |].
  exists out. split_and!; try done.
  intros x y Hin. rewrite (Hpt x y Hin).
  rewrite (bool_decide_eq_true_2 _ (Hall x y Hin)), getpixel_new by done.
  done.
Qed.

Lemma coords_in_bounds w h :
  Forall (λ c, in_bounds w h c.1 c.2) (coords w h).
Proof.
  apply Forall_forall. intros [x y] Hc. by apply elem_of_coords.
Qed.

Lemma make_outline_spec img :
  shape_ok img →
  ∃ out,
    make_outline img = Some out ∧
    shape_ok out ∧ xsize out = xsize img ∧ ysize out = ysize img ∧
    ∀ x y, in_bounds (xsize img) (ysize img) x y →
      getpixel out x y =
      if kept img x y then getpixel img x y else Some transparent.
Proof.
  intros Hs. unfold make_outline, img_size. rewrite outline_loop_over.
  apply outline_over_cover; [done | apply load_reads | apply coords_in_bounds |].
  intros x y Hin. by apply elem_of_coords.
Qed.

(** The outline is determined by its pixels. *)
Lemma outline_unique img out :
  shape_ok img → shape_ok out →
  xsize out = xsize img → ysize out = ysize img →
  (∀ x y, in_bounds (xsize img) (ysize img) x y →
     getpixel out x y =
     if kept img x y then getpixel img x y else Some transparent) →
  make_outline img = Some out.
Proof.
  intros Hs Ho Hw Hh Hpt.
  destruct (make_outline_spec img Hs) as (out' & -> & Ho' & Hw' & Hh' & Hpt').
  f_equal. apply image_ext; [done | done | congruence | congruence |].
  intros x y Hin. rewrite Hw', Hh' in Hin.
  by rewrite Hpt, Hpt'.
Qed.

(** ** The edge test and the boundary rule *)

Lemma open_atb_true img nx ny :
  shape_ok img → open_atb img nx ny = true ↔ open_at img nx ny.
Proof.
  intros Hs. unfold open_atb, open_at.
  destruct (index_ok img nx ny) eqn:Hok; simpl.
  - apply index_ok_true in Hok.
    destruct (getpixel_is_Some img nx ny Hs Hok) as [n ->].
    rewrite Z.eqb_eq. split.
    + intros Ha. right. by exists n.
    + intros [Hout | (n' & [= <-] & Ha)]; done.
  - split; [| done]. intros _. left. intros Hin.
    apply index_ok_true in Hin. congruence.
Qed.

Lemma on_edgeb_true img x y :
  shape_ok img → on_edgeb img x y = true ↔ on_edge img x y.
Proof.
  intros Hs. unfold on_edgeb, on_edge. rewrite existsb_exists. split.
  - intros ([dx dy] & Hd & Ho). exists dx, dy. split.
    + by apply list_elem_of_In.
    + by apply (open_atb_true img).
  - intros (dx & dy & Hd & Ho). exists (dx, dy). split.
    + by apply list_elem_of_In.
    + by apply (open_atb_true img).
Qed.

Lemma on_edgeb_false img x y :
  shape_ok img → on_edgeb img x y = false ↔ ¬ on_edge img x y.
Proof.
  intros Hs. rewrite <- (on_edgeb_true img x y Hs).
  by destruct (on_edgeb img x y).
Qed.

Lemma kept_true img x y p :
  shape_ok img → getpixel img x y = Some p →
  kept img x y = true ↔ alpha p ≠ 0 ∧ on_edge img x y.
Proof.
  intros Hs Hp. unfold kept. rewrite Hp, andb_true_iff, negb_true_iff.
  by rewrite Z.eqb_neq, on_edgeb_true.
Qed.

Lemma is_opaque_true img x y :
  is_opaque img x y = true ↔ ∃ p, getpixel img x y = Some p ∧ alpha p ≠ 0.
Proof.
  unfold is_opaque. destruct (getpixel img x y) as [p |].
  - rewrite negb_true_iff, Z.eqb_neq. split; [by exists p |].
    by intros (? & [= <-] & ?).
  - split; [done | by intros (? & ? & _)].
Qed.

Lemma elem_of_opaque_set img x y :
  (x, y) ∈ opaque_set img ↔
  in_bounds (xsize img) (ysize img) x y ∧ is_opaque img x y = true.
Proof.
  unfold opaque_set.
  rewrite elem_of_list_to_set, list_elem_of_filter, elem_of_coords. simpl.
  tauto.
Qed.

(** ** Well-formed output *)

Lemma elem_of_im_getpixel img p :
  shape_ok img → p ∈ im img →
  ∃ x y, in_bounds (xsize img) (ysize img) x y ∧ getpixel img x y = Some p.
Proof.
  intros Hs Hp. apply list_elem_of_lookup in Hp as [i Hi].
  destruct (offset_surj img i Hs) as (x & y & Hin & Hoff).
  { by apply lookup_lt_Some in Hi. }
  exists x, y. split; [done |]. by rewrite getpixel_in, Hoff.
Qed.

Lemma getpixel_elem_of img x y p : getpixel img x y = Some p → p ∈ im img.
Proof.
  unfold getpixel. destruct (index_ok _ _ _); [| done].
  intros Hp. apply list_elem_of_lookup. eauto.
Qed.

Lemma valid_image_intro img :
  shape_ok img → (∀ p, p ∈ im img → pixel_ok p = true) →
  valid_image img = true.
Proof.
  intros (Hw & Hh & Hlen) Hpx. unfold valid_image.
  rewrite !andb_true_iff. split_and!; [lia | lia | |].
  - by apply bool_decide_eq_true.
  - apply forallb_forall. intros p Hp. apply Hpx. by apply list_elem_of_In.
Qed.

(** On a well-formed image the script returns a well-formed image of
    the same size whose pixels follow the boundary rule. *)
Lemma make_outline_valid img :
  valid_image img = true →
  ∃ out,
    make_outline img = Some out ∧ valid_image out = true ∧
    xsize out = xsize img ∧ ysize out = ysize img ∧
    ∀ x y, in_bounds (xsize img) (ysize img) x y →
      getpixel out x y =
      if kept img x y then getpixel img x y else Some transparent.
Proof.
  intros Hv. pose proof (valid_image_shape img Hv) as Hs.
  destruct (make_outline_spec img Hs) as (out & Hrun & Ho & Hw & Hh & Hpt).
  exists out. split_and!; try done.
  apply valid_image_intro; [done |]. intros q Hq.
  apply elem_of_im_getpixel in Hq as (x & y & Hin & Hq); [| done].
  rewrite Hw, Hh in Hin. rewrite (Hpt x y Hin) in Hq.
  destruct (kept img x y).
  - apply (valid_image_pixels img); [done |]. by apply getpixel_elem_of in Hq.
  - by injection Hq as <-.
Qed.

(** ** The four offsets *)

Lemma offset_left : (-1, 0) ∈ offsets.
Proof. unfold offsets. repeat constructor. Qed.

Lemma offset_right : (1, 0) ∈ offsets.
Proof. unfold offsets. repeat constructor. Qed.

Lemma offset_up : (0, -1) ∈ offsets.
Proof. unfold offsets. repeat constructor. Qed.

Lemma offset_down : (0, 1) ∈ offsets.
Proof. unfold offsets. repeat constructor. Qed.

Lemma elem_of_offsets dx dy :
  (dx, dy) ∈ offsets ↔
  (dx = -1 ∧ dy = 0) ∨ (dx = 1 ∧ dy = 0) ∨
  (dx = 0 ∧ dy = -1) ∨ (dx = 0 ∧ dy = 1).
Proof.
  unfold offsets. rewrite !elem_of_cons, elem_of_nil. split.
  - intros [[= -> ->] | [[= -> ->] | [[= -> ->] | [[= -> ->] | []]]]]; auto.
  - intros [[-> ->] | [[-> ->] | [[-> ->] | [-> ->]]]]; auto.
Qed.

(** ** Locality *)

Lemma open_atb_local img img' nx ny :
  xsize img' = xsize img → ysize img' = ysize img →
  (in_bounds (xsize img) (ysize img) nx ny →
   getpixel img' nx ny = getpixel img nx ny) →
  open_atb img' nx ny = open_atb img nx ny.
Proof.
  intros Hw Hh Hn. unfold open_atb.
  assert (Hok : index_ok img' nx ny = index_ok img nx ny).
  { unfold index_ok. by rewrite Hw, Hh. }
  rewrite Hok. destruct (index_ok img nx ny) eqn:Hin; [| done].
  apply index_ok_true in Hin. by rewrite (Hn Hin).
Qed.

(** Whether a pixel is copied depends on the pixel itself and on its
    four axis-aligned neighbours only. *)
Lemma kept_local img img' x y :
  xsize img' = xsize img → ysize img' = ysize img →
  getpixel img' x y = getpixel img x y →
  (∀ dx dy, (dx, dy) ∈ offsets →
     in_bounds (xsize img) (ysize img) (x + dx) (y + dy) →
     getpixel img' (x + dx) (y + dy) = getpixel img (x + dx) (y + dy)) →
  kept img' x y = kept img x y.
Proof.
  intros Hw Hh Hp Hn. unfold kept. rewrite Hp.
  destruct (getpixel img x y) as [p |]; [| done]. f_equal.
  unfold on_edgeb, offsets. simpl.
  rewrite (open_atb_local img img' (x + -1) (y + 0))
    by (try done; apply Hn, offset_left).
  rewrite (open_atb_local img img' (x + 1) (y + 0))
    by (try done; apply Hn, offset_right).
  rewrite (open_atb_local img img' (x + 0) (y + -1))
    by (try done; apply Hn, offset_up).
  rewrite (open_atb_local img img' (x + 0) (y + 1))
    by (try done; apply Hn, offset_down).
  done.
Qed.

(** ** The boundary rule *)

(** C1: at every coordinate of a well-formed image the script produces
    an output pixel that is transparent when the source alpha is 0, the
    unchanged source pixel when the source is opaque and one of the four
    axis-aligned neighbours is outside the image or has alpha 0, and
    transparent otherwise.  Only the pixel and those four neighbours are
    looked at: an image that differs elsewhere, diagonals included, gets
    the same output pixel. *)
Theorem make_outline_pixel_rule img x y :
  valid_image img = true →
  0 <= x < xsize img → 0 <= y < ysize img →
  ∃ out p q,
    make_outline img = Some out ∧
    getpixel img x y = Some p ∧ getpixel out x y = Some q ∧
    (alpha p = 0 → q = transparent) ∧
    (alpha p ≠ 0 → on_edge img x y → q = p) ∧
    (alpha p ≠ 0 → ¬ on_edge img x y → q = transparent) ∧
    ∀ img' out',
      valid_image img' = true → img_size img' = img_size img →
      getpixel img' x y = Some p →
      (∀ dx dy, (dx, dy) ∈ offsets →
         in_bounds (xsize img) (ysize img) (x + dx) (y + dy) →
         getpixel img' (x + dx) (y + dy) = getpixel img (x + dx) (y + dy)) →
      make_outline img' = Some out' → getpixel out' x y = Some q.
Proof.
  intros Hv Hx Hy. pose proof (valid_image_shape img Hv) as Hs.
  assert (Hin : in_bounds (xsize img) (ysize img) x y) by done.
  destruct (make_outline_valid img Hv) as (out & Hrun & _ & _ & _ & Hpt).
  destruct (getpixel_is_Some img x y Hs Hin) as [p Hp].
  specialize (Hpt x y Hin).
  pose proof (kept_true img x y p Hs Hp) as Hk.
  exists out, p, (if kept img x y then p else transparent).
  split_and!; [done | done | | | | |].
  - rewrite Hpt, Hp. by destruct (kept img x y).
  - intros Ha. destruct (kept img x y); [| done].
    destruct Hk as [Hk _]. by destruct Hk.
  - intros Ha He. destruct (kept img x y); [done |].
    destruct Hk as [_ Hk]. by discriminate Hk.
  - intros Ha He. destruct (kept img x y); [| done].
    destruct Hk as [Hk _]. destruct Hk as [_ Hk]; done.
  - intros img' out' Hv' Hsz Hp' Hn Hrun'.
    injection Hsz as Hw' Hh'.
    destruct (make_outline_valid img' Hv') as (o & Hrun2 & _ & _ & _ & Hpt').
    rewrite Hrun' in Hrun2. injection Hrun2 as <-.
    rewrite Hpt' by (by rewrite Hw', Hh').
    rewrite (kept_local img img' x y) by (done || congruence).
    rewrite Hp'. by destruct (kept img x y).
Qed.

Lemma make_outline_pixel_rule_witness :
  ∃ out, make_outline solid3 = Some out ∧
         getpixel out 0 1 = Some red_px ∧ getpixel out 1 1 = Some transparent.
Proof.
  destruct (make_outline_pixel_rule solid3 0 1 eq_refl)
    as (out & p & q & Hrun & Hp & Hq & _ & Hedge & _); [simpl; lia .. |].
  destruct (make_outline_pixel_rule solid3 1 1 eq_refl)
    as (out' & p' & q' & Hrun' & Hp' & Hq' & _ & _ & Hin & _); [simpl; lia .. |].
  rewrite Hrun in Hrun'. injection Hrun' as <-.
  injection Hp as <-. injection Hp' as <-.
  exists out. split_and!; [done | |].
  - rewrite Hq. f_equal. apply Hedge; [done |].
    exists (-1), 0. split; [apply offset_left |].
    left. unfold in_bounds. simpl. lia.
  - rewrite Hq'. f_equal. apply Hin; [done |].
    by apply (on_edgeb_false solid3 1 1 (valid_image_shape solid3 eq_refl)).
Defined.

(** C2: every pixel of the outline of a well-formed image is either the
    transparent default [(0, 0, 0, 0)] or the source pixel at the same
    coordinate. *)
Theorem outline_pixels_from_source img :
  valid_image img = true →
  ∃ out,
    make_outline img = Some out ∧
    ∀ x y, in_bounds (xsize out) (ysize out) x y →
      ∃ q, getpixel out x y = Some q ∧
           (q = transparent ∨ getpixel img x y = Some q).
Proof.
  intros Hv.
  destruct (make_outline_valid img Hv) as (out & Hrun & _ & Hw & Hh & Hpt).
  exists out. split; [done |]. intros x y Hin. rewrite Hw, Hh in Hin.
  rewrite (Hpt x y Hin).
  destruct (getpixel_is_Some img x y (valid_image_shape img Hv) Hin) as [p Hp].
  destruct (kept img x y); [exists p | exists transparent]; auto.
Qed.

Lemma outline_pixels_from_source_witness :
  ∃ out, make_outline block5 = Some out ∧
         ∃ q, getpixel out 2 2 = Some q ∧
              (q = transparent ∨ getpixel block5 2 2 = Some q).
Proof.
  destruct (outline_pixels_from_source block5 eq_refl) as (out & Hrun & Hpt).
  exists out. split; [done |]. apply Hpt.
  injection Hrun as <-. unfold in_bounds. simpl. lia.
Defined.

(** C3: the outline of a well-formed image is a well-formed image of
    exactly the same width and height. *)
Theorem outline_same_size img :
  valid_image img = true →
  ∃ out,
    make_outline img = Some out ∧
    xsize out = xsize img ∧ ysize out = ysize img ∧
    valid_image out = true.
Proof.
  intros Hv.
  destruct (make_outline_valid img Hv) as (out & Hrun & Hvo & Hw & Hh & _).
  by exists out.
Qed.

Lemma outline_same_size_witness :
  ∃ out, make_outline block5 = Some out ∧
         xsize out = 5 ∧ ysize out = 5 ∧ valid_image out = true.
Proof. exact (outline_same_size block5 eq_refl). Defined.

(** C4: the non-transparent coordinates of the outline are among the
    non-transparent coordinates of the source, and every source pixel
    with alpha 0 becomes [(0, 0, 0, 0)]. *)
Theorem outline_subset img :
  valid_image img = true →
  ∃ out,
    make_outline img = Some out ∧
    opaque_set out ⊆ opaque_set img ∧
    ∀ x y p, in_bounds (xsize img) (ysize img) x y →
      getpixel img x y = Some p → alpha p = 0 →
      getpixel out x y = Some transparent.
Proof.
  intros Hv. pose proof (valid_image_shape img Hv) as Hs.
  destruct (make_outline_valid img Hv) as (out & Hrun & _ & Hw & Hh & Hpt).
  exists out. split_and!; [done | |].
  - intros [x y]. rewrite !elem_of_opaque_set, Hw, Hh.
    intros [Hin Ho]. split; [done |].
    apply is_opaque_true in Ho as (q & Hq & Ha).
    rewrite (Hpt x y Hin) in Hq. apply is_opaque_true.
    destruct (kept img x y) eqn:Hk.
    + exists q. split; [done | done].
    + injection Hq as <-. done.
  - intros x y p Hin Hp Ha. rewrite (Hpt x y Hin).
    destruct (kept img x y) eqn:Hk; [| done].
    apply (kept_true img x y p Hs Hp) in Hk as [Hk _]. done.
Qed.

Lemma outline_subset_witness :
  ∃ out, make_outline tinted_dot3 = Some out ∧
         opaque_set out ⊆ opaque_set tinted_dot3 ∧
         getpixel out 0 0 = Some transparent.
Proof.
  destruct (outline_subset tinted_dot3 eq_refl) as (out & Hrun & Hsub & Hz).
  exists out. split_and!; [done | done |].
  apply (Hz 0 0 tinted_px); [unfold in_bounds; simpl; lia | done | done].
Defined.

(** ** The opaque set of the outline *)

Lemma kept_split img x y :
  kept img x y = is_opaque img x y && on_edgeb img x y.
Proof. unfold kept, is_opaque. by destruct (getpixel img x y). Qed.

Lemma outline_is_opaque img out x y :
  in_bounds (xsize img) (ysize img) x y →
  getpixel out x y =
    (if kept img x y then getpixel img x y else Some transparent) →
  is_opaque out x y = kept img x y.
Proof.
  intros Hin Hpt. unfold is_opaque at 1. rewrite Hpt, kept_split.
  unfold is_opaque.
  destruct (getpixel img x y) as [p |]; simpl; [| done].
  destruct (alpha p =? 0) eqn:Ha; simpl; [done |].
  destruct (on_edgeb img x y); simpl; [by rewrite Ha | done].
Qed.

Lemma strict_subset_elem (X Y : gset (Z * Z)) :
  X ⊂ Y → ∃ c, c ∈ Y ∧ c ∉ X.
Proof.
  intros [_ Hn].
  destruct (set_choose_or_empty (Y ∖ X)) as [[c Hc] | He].
  - exists c. set_solver.
  - exfalso. apply Hn. intros c Hc.
    destruct (decide (c ∈ X)); [done |]. set_solver.
Qed.

(** A kept pixel of the source is still on the edge of the outline. *)
Lemma kept_again img out x y :
  shape_ok img → shape_ok out →
  xsize out = xsize img → ysize out = ysize img →
  (∀ x y, in_bounds (xsize img) (ysize img) x y →
     getpixel out x y =
     if kept img x y then getpixel img x y else Some transparent) →
  in_bounds (xsize img) (ysize img) x y →
  kept img x y = true → kept out x y = true.
Proof.
  intros Hs Ho Hw Hh Hpt Hin Hk.
  rewrite kept_split, andb_true_iff.
  rewrite (outline_is_opaque img out x y Hin (Hpt x y Hin)).
  split; [done |].
  rewrite kept_split, andb_true_iff in Hk. destruct Hk as [_ He].
  apply (on_edgeb_true img x y Hs) in He as (dx & dy & Hd & Hopen).
  apply (on_edgeb_true out x y Ho). exists dx, dy. split; [done |].
  unfold open_at in *. rewrite Hw, Hh.
  destruct Hopen as [Hout | (n & Hn & Ha)]; [by left |].
  destruct (decide (in_bounds (xsize img) (ysize img) (x + dx) (y + dy)))
    as [Hnin | Hnout]; [| by left].
  right. exists transparent. split; [| done].
  rewrite (Hpt _ _ Hnin). unfold kept. rewrite Hn.
  apply Z.eqb_eq in Ha. by rewrite Ha.
Qed.

Lemma make_outline_idem img o1 :
  shape_ok img → make_outline img = Some o1 → make_outline o1 = Some o1.
Proof.
  intros Hs Hrun.
  destruct (make_outline_spec img Hs) as (out & Hrun' & Ho & Hw & Hh & Hpt).
  rewrite Hrun in Hrun'. injection Hrun' as <-.
  apply outline_unique; [done | done | done | done |].
  intros x y Hin. rewrite Hw, Hh in Hin.
  destruct (kept o1 x y) eqn:Hk1; [done |].
  rewrite (Hpt x y Hin).
  destruct (kept img x y) eqn:Hk; [| done].
  rewrite (kept_again img o1 x y) in Hk1; done.
Qed.

(** C5, as it stands, fails on a 3x3 opaque block inside a 5x5 image:
    the block is three pixels thick, its outline is the ring of eight
    pixels, and the outline of that ring is the same ring again. *)
Lemma reextract_block5_not_smaller :
  valid_image block5 = true ∧
  thick_at block5 1 1 = true ∧ core_at block5 2 2 = true ∧
  ∃ o1 o2,
    make_outline block5 = Some o1 ∧ make_outline o1 = Some o2 ∧
    o2 = o1 ∧ ¬ (opaque_set o2 ⊂ opaque_set o1).
Proof.
  split_and!; [done | done | done |].
  destruct (make_outline block5) as [o1 |] eqn:Hrun; [| discriminate Hrun].
  exists o1, o1. split_and!; [done | | done |].
  - injection Hrun as <-. reflexivity.
  - intros [_ Hn]. by apply Hn.
Qed.

(** C5, amended: extracting the outline of an outline changes nothing,
    so the second application yields exactly the non-transparent set
    of the first.  The set shrinks strictly only on the first
    application, and exactly when the source has an opaque pixel whose
    four neighbours are all inside the image and opaque. *)
Theorem outline_idempotent img :
  valid_image img = true →
  ∃ o1,
    make_outline img = Some o1 ∧ make_outline o1 = Some o1 ∧
    (opaque_set o1 ⊂ opaque_set img ↔
     ∃ x y, in_bounds (xsize img) (ysize img) x y ∧ core_at img x y = true).
Proof.
  intros Hv. pose proof (valid_image_shape img Hv) as Hs.
  destruct (make_outline_spec img Hs) as (o1 & Hrun & Ho & Hw & Hh & Hpt).
  exists o1. split_and!; [done | by apply (make_outline_idem img) |].
  assert (Hmem : ∀ x y, (x, y) ∈ opaque_set o1 ↔
            in_bounds (xsize img) (ysize img) x y ∧ kept img x y = true).
  { intros x y. rewrite elem_of_opaque_set, Hw, Hh. split.
    - intros [Hin Hop]. split; [done |].
      by rewrite <- (outline_is_opaque img o1 x y Hin (Hpt x y Hin)).
    - intros [Hin Hk]. split; [done |].
      by rewrite (outline_is_opaque img o1 x y Hin (Hpt x y Hin)). }
  split.
  - intros Hsub. apply strict_subset_elem in Hsub as ([x y] & Hy & Hn).
    apply elem_of_opaque_set in Hy as [Hin Hop]. exists x, y.
    split; [done |]. unfold core_at. rewrite Hop. simpl.
    destruct (on_edgeb img x y) eqn:He; [| done].
    exfalso. apply Hn, Hmem. split; [done |].
    by rewrite kept_split, Hop, He.
  - intros (x & y & Hin & Hc). unfold core_at in Hc.
    apply andb_true_iff in Hc as [Hop He]. apply negb_true_iff in He.
    apply elem_of_subset. split.
    + intros [x' y'] Hc'. apply Hmem in Hc' as [Hin' Hk].
      apply elem_of_opaque_set. split; [done |].
      rewrite kept_split in Hk. by apply andb_true_iff in Hk as [? _].
    + intros Hall. specialize (Hall (x, y)).
      rewrite elem_of_opaque_set, Hmem in Hall.
      destruct Hall as [_ Hk]; [done |].
      rewrite kept_split, He, andb_false_r in Hk. done.
Qed.

Lemma outline_idempotent_witness :
  ∃ o1, make_outline block5 = Some o1 ∧ make_outline o1 = Some o1 ∧
        opaque_set o1 ⊂ opaque_set block5.
Proof.
  destruct (outline_idempotent block5 eq_refl) as (o1 & Hrun & Hidem & Hiff).
  exists o1. split_and!; [done | done |].
  apply Hiff. exists 2, 2. split; [unfold in_bounds; simpl; lia | done].
Defined.

(** ** Solid rectangles *)

Lemma solid_alpha img p : solid img = true → p ∈ im img → alpha p ≠ 0.
Proof.
  unfold solid. rewrite forallb_forall. intros Hall Hp.
  apply list_elem_of_In, Hall, negb_true_iff, Z.eqb_neq in Hp. done.
Qed.

Lemma solid_is_opaque img x y :
  shape_ok img → solid img = true →
  in_bounds (xsize img) (ysize img) x y → is_opaque img x y = true.
Proof.
  intros Hs Hsol Hin. apply is_opaque_true.
  destruct (getpixel_is_Some img x y Hs Hin) as [p Hp]. exists p.
  split; [done |]. apply (solid_alpha img); [done |].
  by apply getpixel_elem_of in Hp.
Qed.

(** In a solid image only the outside is open. *)
Lemma solid_open_at img nx ny :
  solid img = true →
  open_at img nx ny ↔ ¬ in_bounds (xsize img) (ysize img) nx ny.
Proof.
  intros Hsol. unfold open_at. split; [| by left].
  intros [Hout | (n & Hn & Ha)]; [done |].
  apply getpixel_elem_of in Hn. by apply (solid_alpha img) in Hn.
Qed.

Lemma solid_on_edge img x y :
  solid img = true → in_bounds (xsize img) (ysize img) x y →
  on_edge img x y ↔
  x = 0 ∨ x = xsize img - 1 ∨ y = 0 ∨ y = ysize img - 1.
Proof.
  intros Hsol Hin. unfold on_edge. split.
  - intros (dx & dy & Hd & Hopen).
    apply (solid_open_at img _ _ Hsol) in Hopen.
    unfold in_bounds in *. apply elem_of_offsets in Hd. lia.
  - unfold in_bounds in *. intros Hring.
    assert (Hcase : x = 0 ∨ (x ≠ 0 ∧ x = xsize img - 1) ∨
                    (y = 0) ∨ (y ≠ 0 ∧ y = ysize img - 1)) by lia.
    destruct Hcase as [Hc | [Hc | [Hc | Hc]]].
    + exists (-1), 0. split; [apply offset_left |].
      apply solid_open_at; [done |]. unfold in_bounds. lia.
    + exists 1, 0. split; [apply offset_right |].
      apply solid_open_at; [done |]. unfold in_bounds. lia.
    + exists 0, (-1). split; [apply offset_up |].
      apply solid_open_at; [done |]. unfold in_bounds. lia.
    + exists 0, 1. split; [apply offset_down |].
      apply solid_open_at; [done |]. unfold in_bounds. lia.
Qed.

(** C6: for a solid image at least 3 pixels wide and high, the
    non-transparent pixels of the outline are exactly those of the
    outermost rows and columns, where the source pixel is kept, and
    every interior pixel of the outline is [(0, 0, 0, 0)]. *)
Theorem solid_outline_ring img :
  valid_image img = true → solid img = true →
  3 <= xsize img → 3 <= ysize img →
  ∃ out,
    make_outline img = Some out ∧
    (∀ x y, (x, y) ∈ opaque_set out ↔
       in_bounds (xsize img) (ysize img) x y ∧
       (x = 0 ∨ x = xsize img - 1 ∨ y = 0 ∨ y = ysize img - 1)) ∧
    (∀ x y, in_bounds (xsize img) (ysize img) x y →
       x = 0 ∨ x = xsize img - 1 ∨ y = 0 ∨ y = ysize img - 1 →
       getpixel out x y = getpixel img x y) ∧
    (∀ x y, 0 < x < xsize img - 1 → 0 < y < ysize img - 1 →
       getpixel out x y = Some transparent).
Proof.
  intros Hv Hsol HW HH. pose proof (valid_image_shape img Hv) as Hs.
  destruct (make_outline_spec img Hs) as (out & Hrun & Ho & Hw & Hh & Hpt).
  assert (Hk : ∀ x y, in_bounds (xsize img) (ysize img) x y →
            kept img x y = true ↔
            x = 0 ∨ x = xsize img - 1 ∨ y = 0 ∨ y = ysize img - 1).
  { intros x y Hin.
    rewrite kept_split, (solid_is_opaque img x y Hs Hsol Hin). simpl.
    rewrite (on_edgeb_true img x y Hs). by apply solid_on_edge. }
  exists out. split_and!; [done | | |].
  - intros x y. rewrite elem_of_opaque_set, Hw, Hh. split.
    + intros [Hin Hop]. split; [done |]. apply (Hk x y Hin).
      by rewrite <- (outline_is_opaque img out x y Hin (Hpt x y Hin)).
    + intros [Hin Hring]. split; [done |].
      rewrite (outline_is_opaque img out x y Hin (Hpt x y Hin)).
      by apply Hk.
  - intros x y Hin Hring. rewrite (Hpt x y Hin).
    apply (Hk x y Hin) in Hring. by rewrite Hring.
  - intros x y Hx Hy.
    assert (Hin : in_bounds (xsize img) (ysize img) x y)
      by (unfold in_bounds; lia).
    rewrite (Hpt x y Hin).
    destruct (kept img x y) eqn:Hkept; [| done].
    apply (Hk x y Hin) in Hkept. lia.
Qed.

Lemma solid_outline_ring_witness :
  ∃ out, make_outline solid3 = Some out ∧
         (0, 2) ∈ opaque_set out ∧ ((1, 1) ∉ opaque_set out) ∧
         getpixel out 1 1 = Some transparent.
Proof.
  destruct (solid_outline_ring solid3 eq_refl eq_refl)
    as (out & Hrun & Hset & _ & Hmid); [simpl; lia .. |].
  exists out. split_and!; [done | | |].
  - apply Hset. unfold in_bounds. simpl. lia.
  - rewrite Hset. simpl. lia.
  - apply Hmid; simpl; lia.
Defined.

(** ** A single pixel *)

Lemma lone_center_spec img :
  lone_center img = true →
  xsize img = 3 ∧ ysize img = 3 ∧
  ∀ x y, in_bounds 3 3 x y →
    is_opaque img x y = bool_decide ((x, y) = (1, 1)).
Proof.
  unfold lone_center. rewrite !andb_true_iff.
  intros [[Hw Hh] Hall].
  apply bool_decide_eq_true in Hw, Hh. split_and!; [done | done |].
  intros x y Hin. rewrite forallb_forall in Hall.
  assert (Hc : (x, y) ∈ coords 3 3) by by apply elem_of_coords.
  apply list_elem_of_In, Hall, bool_decide_eq_true in Hc. done.
Qed.

Lemma three_cases x : 0 <= x < 3 → x = 0 ∨ x = 1 ∨ x = 2.
Proof. lia. Qed.

(** The 3x3 image with [c] in the middle of eight [(0, 0, 0, 0)] pixels. *)
Lemma getpixel_dot c x y :
  in_bounds 3 3 x y →
  getpixel (mkImage 3 3 [transparent; transparent; transparent;
                         transparent; c; transparent;
                         transparent; transparent; transparent]) x y =
  Some (if bool_decide ((x, y) = (1, 1)) then c else transparent).
Proof.
  intros [Hx Hy].
  apply three_cases in Hx as [-> | [-> | ->]];
    apply three_cases in Hy as [-> | [-> | ->]]; reflexivity.
Qed.

(** C7, as it stands, fails when a transparent pixel of the source
    carries colour: the script leaves [(0, 0, 0, 0)] there, so the
    output differs from the input. *)
Lemma tinted_dot3_changed :
  valid_image tinted_dot3 = true ∧ lone_center tinted_dot3 = true ∧
  ∃ out, make_outline tinted_dot3 = Some out ∧ out ≠ tinted_dot3 ∧
         getpixel tinted_dot3 0 0 = Some tinted_px ∧
         getpixel out 0 0 = Some transparent.
Proof.
  split_and!; [done | done |]. exists dot3. split_and!; done.
Qed.

(** C7, amended: for a 3x3 image whose only pixel with non-zero alpha
    is the centre, the output keeps the centre pixel unchanged and has
    [(0, 0, 0, 0)] at the eight other coordinates; it is identical to
    the input exactly when those eight source pixels are
    [(0, 0, 0, 0)]. *)
Theorem lone_center_outline img :
  valid_image img = true → lone_center img = true →
  ∃ out c,
    make_outline img = Some out ∧
    getpixel img 1 1 = Some c ∧ alpha c ≠ 0 ∧ on_edge img 1 1 ∧
    out = mkImage 3 3 [transparent; transparent; transparent;
                       transparent; c; transparent;
                       transparent; transparent; transparent] ∧
    (out = img ↔
     ∀ x y, in_bounds 3 3 x y → (x, y) ≠ (1, 1) →
            getpixel img x y = Some transparent).
Proof.
  intros Hv Hlone. pose proof (valid_image_shape img Hv) as Hs.
  destruct (lone_center_spec img Hlone) as (HW & HH & Hop).
  destruct (make_outline_spec img Hs) as (out & Hrun & Ho & Hw & Hh & Hpt).
  rewrite HW, HH in Hpt.
  assert (Hmid : in_bounds 3 3 1 1) by (unfold in_bounds; lia).
  pose proof (Hop 1 1 Hmid) as Hc. rewrite bool_decide_eq_true_2 in Hc by done.
  apply is_opaque_true in Hc as (c & Hc & Ha).
  assert (Hedge : on_edge img 1 1).
  { exists (-1), 0. split; [apply offset_left |]. right.
    assert (Hl : in_bounds 3 3 (1 + -1) (1 + 0)) by (unfold in_bounds; lia).
    specialize (Hop _ _ Hl). rewrite bool_decide_eq_false_2 in Hop by done.
    unfold is_opaque in Hop.
    destruct (getpixel_is_Some img (1 + -1) (1 + 0) Hs) as [n Hn];
      [by rewrite HW, HH |].
    rewrite Hn in Hop. exists n. split; [done |].
    apply negb_false_iff, Z.eqb_eq in Hop. done. }
  assert (Hk : ∀ x y, in_bounds 3 3 x y →
                 kept img x y = bool_decide ((x, y) = (1, 1))).
  { intros x y Hin. rewrite kept_split, (Hop x y Hin).
    case_bool_decide as Heq; [| done].
    injection Heq as -> ->. simpl. by apply on_edgeb_true. }
  set (dot := mkImage 3 3 [transparent; transparent; transparent;
                           transparent; c; transparent;
                           transparent; transparent; transparent]).
  assert (Hout : out = dot).
  { apply image_ext; [done | | by rewrite Hw | by rewrite Hh |].
    - unfold shape_ok. simpl. lia.
    - intros x y Hin. rewrite Hw, Hh, HW, HH in Hin.
      unfold dot. rewrite (Hpt x y Hin), (Hk x y Hin), getpixel_dot by done.
      case_bool_decide as Heq; [| done]. by injection Heq as -> ->. }
  exists out, c. split_and!; [done | done | done | done | done |].
  split.
  - intros <- x y Hin Hne. rewrite (Hpt x y Hin), (Hk x y Hin).
    by rewrite bool_decide_eq_false_2.
  - intros Hclean. rewrite Hout. apply image_ext.
    + unfold shape_ok. simpl. lia.
    + done.
    + by rewrite HW.
    + by rewrite HH.
    + intros x y Hin. simpl in Hin. unfold dot.
      rewrite getpixel_dot by done.
      case_bool_decide as Heq.
      * injection Heq as -> ->. done.
      * symmetry. by apply Hclean.
Qed.

Lemma lone_center_outline_witness :
  ∃ out, make_outline dot3 = Some out ∧ out = dot3.
Proof.
  destruct (lone_center_outline dot3 eq_refl eq_refl)
    as (out & c & Hrun & Hc & _ & _ & Hout & _).
  exists out. split; [done |]. by injection Hc as <-.
Defined.

(** ** Totality *)

Lemma strict_load_reads img : reads (strict_load img) img.
Proof.
  intros x y Hin. unfold strict_load.
  by rewrite getpixel_in, index_ok_in.
Qed.

Lemma shape_ok_empty img :
  shape_ok img → xsize img = 0 → ysize img = 0 → img = empty_image.
Proof.
  destruct img as [w h l]. unfold shape_ok. simpl.
  intros (_ & _ & Hlen) -> ->. simpl in Hlen.
  apply nil_length_inv in Hlen as ->. done.
Qed.

(** C8: on every well-formed image the script returns an image and
    raises nothing.  It returns the same image with any pixel access
    that reads the source correctly inside the image, whatever that
    access does at other indices, so no index outside the image is ever
    read; a neighbour outside the image makes the edge test succeed
    through the comparisons alone.  The 0x0 image has no coordinate to
    visit and yields the 0x0 image. *)
Theorem make_outline_total img pixels :
  valid_image img = true → reads pixels img →
  ∃ out,
    make_outline img = Some out ∧
    outline_loop pixels (xsize img) (ysize img)
      (Image_new (xsize img) (ysize img) transparent) = Some out ∧
    (∀ x y dx dy,
       in_bounds (xsize img) (ysize img) x y → (dx, dy) ∈ offsets →
       ¬ in_bounds (xsize img) (ysize img) (x + dx) (y + dy) →
       find_edge pixels (xsize img) (ysize img) x y offsets = Some true) ∧
    (xsize img = 0 → ysize img = 0 →
       coords (xsize img) (ysize img) = [] ∧
       img = empty_image ∧ out = empty_image).
Proof.
  intros Hv Hr. pose proof (valid_image_shape img Hv) as Hs.
  destruct (make_outline_spec img Hs) as (out & Hrun & Ho & Hw & Hh & Hpt).
  exists out. split_and!; [done | | |].
  - rewrite outline_loop_over.
    destruct (outline_over_cover pixels img
                (coords (xsize img) (ysize img)) Hs Hr)
      as (out' & Hrun' & Ho' & Hw' & Hh' & Hpt').
    { apply coords_in_bounds. }
    { intros x y Hin. by apply elem_of_coords. }
    rewrite Hrun'. f_equal.
    apply image_ext; [done | done | congruence | congruence |].
    intros x y Hin. rewrite Hw', Hh' in Hin. by rewrite Hpt, Hpt'.
  - intros x y dx dy Hin Hd Hout.
    rewrite (find_edge_reads pixels img) by done. f_equal.
    apply (on_edgeb_true img x y Hs). exists dx, dy. split; [done |].
    by left.
  - intros H0w H0h. split_and!.
    + by rewrite H0w, H0h.
    + by apply shape_ok_empty.
    + apply shape_ok_empty; [done | congruence | congruence].
Qed.

Lemma make_outline_total_witness :
  ∃ out,
    make_outline solid3 = Some out ∧
    outline_loop (strict_load solid3) 3 3 (Image_new 3 3 transparent) =
      Some out ∧
    find_edge (strict_load solid3) 3 3 0 1 offsets = Some true.
Proof.
  destruct (make_outline_total solid3 (strict_load solid3) eq_refl
              (strict_load_reads solid3))
    as (out & Hrun & Hloop & Hedge & _).
  exists out. split_and!; [done | done |].
  apply (Hedge 0 1 (-1) 0); [| apply offset_left |];
    unfold in_bounds; simpl; lia.
Defined.

(** ** Determinism and order *)

(** C9: the result is a function of the source image alone; running
    the loop body over the coordinates in any order gives the same
    image as the row-by-row loops; and each output pixel depends only on
    the source pixel at that coordinate and on its four direct
    neighbours. *)
Theorem make_outline_deterministic img :
  valid_image img = true →
  ∃ out,
    make_outline img = Some out ∧
    (∀ img', xsize img' = xsize img → ysize img' = ysize img →
             im img' = im img → make_outline img' = Some out) ∧
    (∀ cs, cs ≡ₚ coords (xsize img) (ysize img) →
       outline_over (load img) (xsize img) (ysize img) cs
         (Image_new (xsize img) (ysize img) transparent) = Some out) ∧
    (∀ img' out' x y,
       valid_image img' = true → img_size img' = img_size img →
       in_bounds (xsize img) (ysize img) x y →
       getpixel img' x y = getpixel img x y →
       (∀ dx dy, (dx, dy) ∈ offsets →
          in_bounds (xsize img) (ysize img) (x + dx) (y + dy) →
          getpixel img' (x + dx) (y + dy) = getpixel img (x + dx) (y + dy)) →
       make_outline img' = Some out' →
       getpixel out' x y = getpixel out x y).
Proof.
  intros Hv. pose proof (valid_image_shape img Hv) as Hs.
  destruct (make_outline_spec img Hs) as (out & Hrun & Ho & Hw & Hh & Hpt).
  exists out. split_and!; [done | | |].
  - intros [w h l] Hw' Hh' Hl. simpl in *. subst.
    by destruct img.
  - intros cs Hperm.
    destruct (outline_over_cover (load img) img cs Hs (load_reads img))
      as (out' & Hrun' & Ho' & Hw' & Hh' & Hpt').
    { rewrite Hperm. apply coords_in_bounds. }
    { intros x y Hin. rewrite Hperm. by apply elem_of_coords. }
    rewrite Hrun'. f_equal.
    apply image_ext; [done | done | congruence | congruence |].
    intros x y Hin. rewrite Hw', Hh' in Hin. by rewrite Hpt, Hpt'.
  - intros img' out' x y Hv' Hsz Hin Hp Hn Hrun'.
    injection Hsz as Hw' Hh'.
    destruct (make_outline_spec img' (valid_image_shape img' Hv'))
      as (o & Hrun2 & _ & _ & _ & Hpt').
    rewrite Hrun' in Hrun2. injection Hrun2 as <-.
    rewrite Hpt' by (by rewrite Hw', Hh').
    rewrite (kept_local img img' x y) by done.
    by rewrite Hp, Hpt.
Qed.

Lemma make_outline_deterministic_witness :
  ∃ out,
    make_outline block5 = Some out ∧
    outline_over (load block5) 5 5 (reverse (coords 5 5))
      (Image_new 5 5 transparent) = Some out.
Proof.
  destruct (make_outline_deterministic block5 eq_refl)
    as (out & Hrun & _ & Horder & _).
  exists out. split; [done |].
  apply (Horder (reverse (coords 5 5))), reverse_Permutation.
Defined.

(** ** Non-empty outlines *)

Lemma not_opaque_open img nx ny :
  shape_ok img → is_opaque img nx ny = false → open_at img nx ny.
Proof.
  intros Hs Hop.
  destruct (decide (in_bounds (xsize img) (ysize img) nx ny))
    as [Hin | Hout]; [| by left].
  right. destruct (getpixel_is_Some img nx ny Hs Hin) as [n Hn].
  exists n. split; [done |]. unfold is_opaque in Hop. rewrite Hn in Hop.
  by apply negb_false_iff, Z.eqb_eq in Hop.
Qed.

(** Walking up a column from an opaque pixel reaches an opaque pixel
    whose upper neighbour is open. *)
Lemma column_top img x (n : nat) :
  shape_ok img →
  ∀ y, Z.to_nat y = n →
    in_bounds (xsize img) (ysize img) x y → is_opaque img x y = true →
    ∃ y', 0 <= y' <= y ∧ is_opaque img x y' = true ∧
          open_at img (x + 0) (y' + -1).
Proof.
  intros Hs. induction n as [| n IH]; intros y Hn Hin Hop.
  - exists y. split; [unfold in_bounds in Hin; lia |]. split; [done |].
    left. unfold in_bounds in *. lia.
  - destruct (is_opaque img x (y + -1)) eqn:Hup.
    + destruct (IH (y + -1)) as (y' & Hy' & Hop' & Hopen);
        [lia | unfold in_bounds in *; lia | done |].
      exists y'. split; [lia | by split].
    + exists y. split; [unfold in_bounds in Hin; lia |]. split; [done |].
      rewrite Z.add_0_r. by apply not_opaque_open.
Qed.

(** C10: when a well-formed image at least one pixel wide and high has a
    pixel with non-zero alpha, so has its outline; in particular an
    opaque pixel of minimal row is copied to the outline. *)
Theorem outline_nonempty img x y :
  valid_image img = true → 1 <= xsize img → 1 <= ysize img →
  in_bounds (xsize img) (ysize img) x y → is_opaque img x y = true →
  ∃ out,
    make_outline img = Some out ∧
    (∃ x' y', in_bounds (xsize img) (ysize img) x' y' ∧
              is_opaque out x' y' = true) ∧
    opaque_set out ≠ ∅ ∧
    (∀ x0 y0,
       in_bounds (xsize img) (ysize img) x0 y0 →
       is_opaque img x0 y0 = true →
       (∀ x1 y1, in_bounds (xsize img) (ysize img) x1 y1 →
                 is_opaque img x1 y1 = true → y0 <= y1) →
       is_opaque out x0 y0 = true ∧ getpixel out x0 y0 = getpixel img x0 y0).
Proof.
  intros Hv HW HH Hin Hop. pose proof (valid_image_shape img Hv) as Hs.
  destruct (make_outline_spec img Hs) as (out & Hrun & Ho & Hw & Hh & Hpt).
  destruct (column_top img x (Z.to_nat y) Hs y eq_refl Hin Hop)
    as (y' & Hy' & Hop' & Hopen).
  assert (Hin' : in_bounds (xsize img) (ysize img) x y')
    by (unfold in_bounds in *; lia).
  assert (Hk : kept img x y' = true).
  { rewrite kept_split, Hop'. simpl. apply (on_edgeb_true img x y' Hs).
    exists 0, (-1). split; [apply offset_up | done]. }
  assert (Hopo : is_opaque out x y' = true).
  { by rewrite (outline_is_opaque img out x y' Hin' (Hpt x y' Hin')). }
  exists out. split; [done |]. split; [by exists x, y' |]. split.
  - intros Hempty.
    assert (Hel : (x, y') ∈ opaque_set out).
    { apply elem_of_opaque_set. by rewrite Hw, Hh. }
    rewrite Hempty in Hel. by apply not_elem_of_empty in Hel.
  - intros x0 y0 Hin0 Hop0 Hmin.
    assert (Hk0 : kept img x0 y0 = true).
    { rewrite kept_split, Hop0. simpl. apply (on_edgeb_true img x0 y0 Hs).
      exists 0, (-1). split; [apply offset_up |].
      destruct (decide (in_bounds (xsize img) (ysize img)
                          (x0 + 0) (y0 + -1))) as [Hi | Hn]; [| by left].
      apply not_opaque_open; [done |].
      destruct (is_opaque img (x0 + 0) (y0 + -1)) eqn:Hup; [| done].
      specialize (Hmin _ _ Hi Hup). lia. }
    split.
    + by rewrite (outline_is_opaque img out x0 y0 Hin0 (Hpt x0 y0 Hin0)).
    + by rewrite (Hpt x0 y0 Hin0), Hk0.
Qed.

Lemma outline_nonempty_witness :
  ∃ out,
    make_outline block5 = Some out ∧ opaque_set out ≠ ∅ ∧
    getpixel out 3 1 = Some red_px.
Proof.
  destruct (outline_nonempty block5 2 2 eq_refl)
    as (out & Hrun & _ & Hne & Htop);
    [simpl; lia | simpl; lia | unfold in_bounds; simpl; lia | done |].
  exists out. split; [done |]. split; [done |].
  apply (Htop 3 1); [unfold in_bounds; simpl; lia | done |].
  intros x1 y1 [Hx Hy] Hop1. simpl in Hx, Hy.
  destruct (decide (y1 = 0)) as [-> | Hy0]; [| lia].
  exfalso.
  assert (Hc : x1 = 0 ∨ x1 = 1 ∨ x1 = 2 ∨ x1 = 3 ∨ x1 = 4) by lia.
  destruct Hc as [-> | [-> | [-> | [-> | ->]]]]; discriminate Hop1.
Defined.

(** ** Paths *)

Lemma string_app_assoc (a b c : string) : (a +:+ b) +:+ c = a +:+ b +:+ c.
Proof.
  induction a as [| ch a IH]; [done |].
  change (String ch ((a +:+ b) +:+ c) = String ch (a +:+ b +:+ c)).
  by rewrite IH.
Qed.

Lemma string_length_app (a b : string) :
  String.length (a +:+ b) = (String.length a + String.length b)%nat.
Proof.
  induction a as [| ch a IH]; [done |].
  change (S (String.length (a +:+ b)) =
          S (String.length a + String.length b))%nat.
  by rewrite IH.
Qed.

Lemma string_app_inj_r (a b t : string) : a +:+ t = b +:+ t → a = b.
Proof.
  revert b. induction a as [| ch a IH]; intros [| ch' b] Heq.
  - done.
  - apply (f_equal String.length) in Heq.
    rewrite (string_length_app (String ch' b) t) in Heq.
    change (String.length ("" +:+ t)) with (String.length t) in Heq.
    simpl in Heq. lia.
  - apply (f_equal String.length) in Heq.
    rewrite (string_length_app (String ch a) t) in Heq.
    change (String.length ("" +:+ t)) with (String.length t) in Heq.
    simpl in Heq. lia.
  - change (String ch (a +:+ t) = String ch' (b +:+ t)) in Heq.
    injection Heq as -> Heq. f_equal. by apply IH.
Qed.

(** A name that does not start with the separator is put after the
    directory. *)
Lemma path_join_relative a name :
  starts_with_sep name = false → path_join a name = dir_prefix a +:+ name.
Proof.
  intros Hrel. unfold path_join, dir_prefix. rewrite Hrel.
  destruct (is_empty a || ends_with_sep a); [done |].
  by rewrite string_app_assoc.
Qed.

Lemma src_path_eq SRC_DIR color :
  src_path SRC_DIR color = dir_prefix SRC_DIR +:+ "tile_" +:+ color +:+ ".png".
Proof. unfold src_path. by rewrite path_join_relative. Qed.

Lemma out_path_eq SRC_DIR color :
  out_path SRC_DIR color =
  dir_prefix SRC_DIR +:+ "outline_" +:+ color +:+ ".png".
Proof. unfold out_path, OUTLINE_DIR. by rewrite path_join_relative. Qed.

Lemma src_out_path_ne SRC_DIR color color' :
  src_path SRC_DIR color ≠ out_path SRC_DIR color'.
Proof.
  rewrite src_path_eq, out_path_eq. intros Heq.
  apply (inj (String.app _)) in Heq. discriminate Heq.
Qed.

Lemma out_path_inj SRC_DIR color color' :
  out_path SRC_DIR color = out_path SRC_DIR color' → color = color'.
Proof.
  rewrite !out_path_eq. intros Heq.
  apply (inj (String.app _)), (inj (String.app "outline_")) in Heq.
  by apply string_app_inj_r in Heq.
Qed.

Lemma src_path_inj SRC_DIR color color' :
  src_path SRC_DIR color = src_path SRC_DIR color' → color = color'.
Proof.
  rewrite !src_path_eq. intros Heq.
  apply (inj (String.app _)), (inj (String.app "tile_")) in Heq.
  by apply string_app_inj_r in Heq.
Qed.

(** X1: whatever the directory and the colour names, a tile path and an
    outline path are never the same, both lie in the same directory
    under the names [tile_<color>.png] and [outline_<color>.png], and
    different colours have different outline paths and different tile
    paths. *)
Theorem paths_never_collide SRC_DIR color color' :
  src_path SRC_DIR color ≠ out_path SRC_DIR color' ∧
  (∃ dir, src_path SRC_DIR color = dir +:+ "tile_" +:+ color +:+ ".png" ∧
          out_path SRC_DIR color = dir +:+ "outline_" +:+ color +:+ ".png") ∧
  (out_path SRC_DIR color = out_path SRC_DIR color' → color = color') ∧
  (src_path SRC_DIR color = src_path SRC_DIR color' → color = color').
Proof.
  split; [apply src_out_path_ne |]. split.
  - exists (dir_prefix SRC_DIR). split; [apply src_path_eq | apply out_path_eq].
  - split; [apply out_path_inj | apply src_path_inj].
Qed.

(** ** One colour *)





(** ** All colours *)








(** ** The test worlds *)





(** ** The whole run *)








(** ** Images the extraction leaves alone, and images it empties *)

Lemma clear_alpha img p : clear img = true → p ∈ im img → alpha p = 0.
Proof.
  unfold clear. rewrite forallb_forall. intros Hall Hp.
  by apply list_elem_of_In, Hall, Z.eqb_eq in Hp.
Qed.

Lemma kept_opaque img x y : kept img x y = true → is_opaque img x y = true.
Proof. rewrite kept_split. by intros [? _]%andb_true_iff. Qed.

(** X6: an image without any opaque pixel gives the freshly created
    transparent image of the same size, whatever colour its transparent
    pixels carry. *)
Theorem clear_outline img :
  valid_image img = true → clear img = true →
  make_outline img = Some (Image_new (xsize img) (ysize img) transparent).
Proof.
  intros Hv Hclear. pose proof (valid_image_shape img Hv) as Hs.
  pose proof Hs as (Hw & Hh & _).
  apply outline_unique; [done | by apply Image_new_shape | done | done |].
  intros x y Hin. rewrite getpixel_new by done.
  destruct (kept img x y) eqn:Hk; [| done].
  apply kept_opaque, is_opaque_true in Hk as (p & Hp & Ha).
  apply getpixel_elem_of in Hp. by apply (clear_alpha img) in Hp.
Qed.

Lemma clear_outline_witness :
  make_outline tinted2 = Some (mkImage 2 2 (replicate 4 transparent)).
Proof. exact (clear_outline tinted2 eq_refl eq_refl). Defined.

(** X7: an opaque pixel in the first or last column or row of the
    image is always copied unchanged, whatever surrounds it. *)
Theorem border_pixel_kept img x y p :
  valid_image img = true →
  in_bounds (xsize img) (ysize img) x y →
  getpixel img x y = Some p → alpha p ≠ 0 →
  x = 0 ∨ x = xsize img - 1 ∨ y = 0 ∨ y = ysize img - 1 →
  ∃ out, make_outline img = Some out ∧ getpixel out x y = Some p.
Proof.
  intros Hv Hin Hp Ha Hborder. pose proof (valid_image_shape img Hv) as Hs.
  destruct (make_outline_spec img Hs) as (out & Hrun & _ & _ & _ & Hpt).
  exists out. split; [done |]. rewrite (Hpt x y Hin).
  assert (Hk : kept img x y = true); [| by rewrite Hk].
  apply (kept_true img x y p Hs Hp). split; [done |].
  unfold in_bounds in Hin.
  assert (Hcase : x = 0 ∨ (x = xsize img - 1) ∨ y = 0 ∨ (y = ysize img - 1))
    by done.
  destruct Hcase as [Hc | [Hc | [Hc | Hc]]].
  - exists (-1), 0. split; [apply offset_left |]. left. unfold in_bounds. lia.
  - exists 1, 0. split; [apply offset_right |]. left. unfold in_bounds. lia.
  - exists 0, (-1). split; [apply offset_up |]. left. unfold in_bounds. lia.
  - exists 0, 1. split; [apply offset_down |]. left. unfold in_bounds. lia.
Qed.

Lemma border_pixel_kept_witness :
  ∃ out, make_outline solid3 = Some out ∧ getpixel out 2 1 = Some red_px.
Proof.
  apply (border_pixel_kept solid3 2 1 red_px eq_refl);
    [unfold in_bounds; simpl; lia | reflexivity | simpl; lia | simpl; lia].
Defined.

(** X8: the images the extraction returns unchanged are exactly those
    in which no opaque pixel is surrounded by four opaque neighbours
    inside the image and every pixel with alpha 0 is [(0, 0, 0, 0)]. *)
Theorem outline_fixed_points img :
  valid_image img = true →
  make_outline img = Some img ↔
  (∀ x y, in_bounds (xsize img) (ysize img) x y → core_at img x y = false) ∧
  (∀ p, p ∈ im img → alpha p = 0 → p = transparent).
Proof.
  intros Hv. pose proof (valid_image_shape img Hv) as Hs.
  destruct (make_outline_spec img Hs) as (out & Hrun & _ & _ & _ & Hpt).
  split.
  - intros Hfix. rewrite Hfix in Hrun. injection Hrun as <-. split.
    + intros x y Hin. unfold core_at.
      destruct (is_opaque img x y) eqn:Hop; [| done].
      destruct (on_edgeb img x y) eqn:He; [done |]. exfalso.
      specialize (Hpt x y Hin).
      rewrite kept_split, Hop, He in Hpt. simpl in Hpt.
      unfold is_opaque in Hop. by rewrite Hpt in Hop.
    + intros p Hp Ha.
      apply elem_of_im_getpixel in Hp as (x & y & Hin & Hp); [| done].
      specialize (Hpt x y Hin). unfold kept in Hpt. rewrite Hp in Hpt.
      apply Z.eqb_eq in Ha. rewrite Ha in Hpt. simpl in Hpt.
      by injection Hpt.
  - intros [Hcore Hzero]. apply outline_unique; [done .. |].
    intros x y Hin. destruct (kept img x y) eqn:Hk; [done |].
    destruct (getpixel_is_Some img x y Hs Hin) as [p Hp].
    rewrite Hp. f_equal. apply Hzero; [by apply getpixel_elem_of in Hp |].
    specialize (Hcore x y Hin). unfold core_at in Hcore.
    rewrite kept_split in Hk.
    destruct (is_opaque img x y) eqn:Hop.
    + simpl in *. rewrite Hk in Hcore. done.
    + unfold is_opaque in Hop. rewrite Hp in Hop.
      by apply negb_false_iff, Z.eqb_eq in Hop.
Qed.

Lemma outline_fixed_points_witness :
  make_outline dot3 = Some dot3 ∧ make_outline block5 ≠ Some block5.
Proof.
  split.
  - apply (outline_fixed_points dot3 eq_refl). split.
    + intros x y [Hx Hy]. simpl in Hx, Hy.
      apply three_cases in Hx as [-> | [-> | ->]];
        apply three_cases in Hy as [-> | [-> | ->]]; reflexivity.
    + intros p Hp Ha. unfold dot3 in Hp. simpl in Hp.
      repeat (apply elem_of_cons in Hp as [-> | Hp]; [done || by simpl in Ha |]).
      by apply elem_of_nil in Hp.
  - intros Hfix.
    apply (outline_fixed_points block5 eq_refl) in Hfix as [Hcore _].
    specialize (Hcore 2 2). discriminate Hcore.
    unfold in_bounds. simpl. lia.
Defined.

(** X9: a solid image at most two pixels wide or at most two pixels
    high is returned unchanged: every pixel lies on the border. *)
Theorem thin_solid_outline img :
  valid_image img = true → solid img = true →
  xsize img <= 2 ∨ ysize img <= 2 →
  make_outline img = Some img.
Proof.
  intros Hv Hsol Hthin. pose proof (valid_image_shape img Hv) as Hs.
  apply outline_unique; [done .. |].
  intros x y Hin.
  assert (Hk : kept img x y = true); [| by rewrite Hk].
  rewrite kept_split, (solid_is_opaque img x y Hs Hsol Hin). simpl.
  apply (on_edgeb_true img x y Hs), solid_on_edge; [done | done |].
  unfold in_bounds in Hin. lia.
Qed.

Lemma thin_solid_outline_witness : make_outline solid2x3 = Some solid2x3.
Proof.
  apply (thin_solid_outline solid2x3 eq_refl eq_refl). simpl. lia.
Defined.

(** ** The shape alone decides *)

Lemma is_opaque_in img x y :
  shape_ok img → in_bounds (xsize img) (ysize img) x y →
  ∃ p, getpixel img x y = Some p ∧ is_opaque img x y = negb (alpha p =? 0).
Proof.
  intros Hs Hin. destruct (getpixel_is_Some img x y Hs Hin) as [p Hp].
  exists p. split; [done |]. unfold is_opaque. by rewrite Hp.
Qed.

Lemma open_atb_opaque_at img nx ny :
  shape_ok img → open_atb img nx ny = negb (opaque_at img nx ny).
Proof.
  intros Hs. unfold open_atb, opaque_at.
  destruct (index_ok img nx ny) eqn:Hok; [| done]. simpl.
  apply index_ok_true in Hok.
  destruct (is_opaque_in img nx ny Hs Hok) as (p & Hp & ->).
  rewrite Hp. by rewrite negb_involutive.
Qed.

(** Whether a pixel is copied, in terms of opacity alone. *)
Lemma kept_opaque_at img x y :
  shape_ok img →
  kept img x y =
  is_opaque img x y &&
  (negb (opaque_at img (x + -1) (y + 0)) ||
   negb (opaque_at img (x + 1) (y + 0)) ||
   negb (opaque_at img (x + 0) (y + -1)) ||
   negb (opaque_at img (x + 0) (y + 1))).
Proof.
  intros Hs. rewrite kept_split. f_equal.
  unfold on_edgeb, offsets. simpl.
  rewrite !open_atb_opaque_at by done. by rewrite orb_false_r, !orb_assoc.
Qed.

Lemma same_mask_spec a b :
  same_mask a b = true ↔
  xsize a = xsize b ∧ ysize a = ysize b ∧
  ∀ x y, in_bounds (xsize a) (ysize a) x y →
         is_opaque a x y = is_opaque b x y.
Proof.
  unfold same_mask. rewrite !andb_true_iff, !bool_decide_eq_true.
  rewrite forallb_forall. split.
  - intros [[Hw Hh] Hall]. split_and!; [done | done |].
    intros x y Hin.
    assert (Hc : (x, y) ∈ coords (xsize a) (ysize a))
      by by apply elem_of_coords.
    by apply list_elem_of_In, Hall, bool_decide_eq_true in Hc.
  - intros (Hw & Hh & Hall). split_and!; [done | done |].
    intros [x y] Hc. apply bool_decide_eq_true.
    apply Hall. by apply elem_of_coords, list_elem_of_In.
Qed.

Lemma same_mask_opaque_at a b x y :
  same_mask a b = true → opaque_at a x y = opaque_at b x y.
Proof.
  intros (Hw & Hh & Hall)%same_mask_spec. unfold opaque_at.
  assert (Hok : index_ok b x y = index_ok a x y).
  { unfold index_ok. by rewrite Hw, Hh. }
  rewrite Hok. destruct (index_ok a x y) eqn:Hin; [| done]. simpl.
  apply Hall. by apply index_ok_true.
Qed.

Lemma same_mask_opaque_set a b :
  same_mask a b = true → opaque_set a = opaque_set b.
Proof.
  intros Hm. pose proof Hm as (Hw & Hh & Hall)%same_mask_spec.
  apply set_eq. intros [x y]. rewrite !elem_of_opaque_set, <- Hw, <- Hh.
  split; intros [Hin Hop]; (split; [done |]).
  - by rewrite <- Hall.
  - by rewrite Hall.
Qed.

(** X10: the shape of the outline depends on the shape of the source
    only: two well-formed images of the same size with the same opaque
    coordinates, whatever their colours, have outlines with the same
    opaque coordinates. *)
Theorem outline_shape_from_mask a b :
  valid_image a = true → valid_image b = true → same_mask a b = true →
  ∃ oa ob,
    make_outline a = Some oa ∧ make_outline b = Some ob ∧
    same_mask oa ob = true ∧ opaque_set oa = opaque_set ob.
Proof.
  intros Hva Hvb Hm.
  pose proof (valid_image_shape a Hva) as Hsa.
  pose proof (valid_image_shape b Hvb) as Hsb.
  destruct (make_outline_spec a Hsa) as (oa & Hra & _ & Hwa & Hha & Hpa).
  destruct (make_outline_spec b Hsb) as (ob & Hrb & _ & Hwb & Hhb & Hpb).
  pose proof Hm as (Hw & Hh & Hall)%same_mask_spec.
  assert (Hmo : same_mask oa ob = true).
  { apply same_mask_spec. split_and!; [congruence | congruence |].
    intros x y Hin. rewrite Hwa, Hha in Hin.
    rewrite (outline_is_opaque a oa x y Hin (Hpa x y Hin)).
    assert (Hinb : in_bounds (xsize b) (ysize b) x y) by by rewrite <- Hw, <- Hh.
    rewrite (outline_is_opaque b ob x y Hinb (Hpb x y Hinb)).
    rewrite !kept_opaque_at by done.
    by rewrite (Hall x y Hin), !(same_mask_opaque_at a b). }
  exists oa, ob. split_and!; [done | done | done |].
  by apply same_mask_opaque_set.
Qed.

Lemma outline_shape_from_mask_witness :
  ∃ oa ob,
    make_outline block5 = Some oa ∧ make_outline green_block5 = Some ob ∧
    same_mask oa ob = true ∧ opaque_set oa = opaque_set ob.
Proof.
  exact (outline_shape_from_mask block5 green_block5 eq_refl eq_refl eq_refl).
Defined.

(** ** Images given by a function of the coordinates *)

Lemma length_bind_const {A B : Type} (k : A → list B) (n : nat) (l : list A) :
  (∀ a, length (k a) = n) → length (l ≫= k) = (length l * n)%nat.
Proof.
  intros Hk. induction l as [| a l IH]; [done |].
  rewrite bind_cons, length_app, IH, Hk. simpl. lia.
Qed.

Lemma lookup_bind_const {A B : Type} (k : A → list B) (n : nat)
    (l : list A) (i j : nat) a b :
  (∀ a, length (k a) = n) →
  l !! i = Some a → k a !! j = Some b →
  (l ≫= k) !! (i * n + j)%nat = Some b.
Proof.
  intros Hk. revert i. induction l as [| a0 l IH]; intros i Hi Hj; [done |].
  rewrite bind_cons. destruct i as [| i]; simpl in Hi.
  - injection Hi as ->. rewrite lookup_app_l; [done |].
    apply lookup_lt_Some in Hj. simpl. lia.
  - rewrite lookup_app_r by (rewrite Hk; simpl; lia).
    rewrite Hk. replace (S i * n + j - n)%nat with (i * n + j)%nat
      by (simpl; lia).
    by apply IH.
Qed.

Lemma coords_length w h :
  0 <= w → 0 <= h → length (coords w h) = Z.to_nat (w * h).
Proof.
  intros Hw Hh. unfold coords, range.
  rewrite (length_bind_const _ (Z.to_nat w)).
  - rewrite length_seqZ. lia.
  - intros y. rewrite (length_bind_const _ 1%nat) by done.
    rewrite length_seqZ. lia.
Qed.

Lemma coords_lookup w h x y :
  in_bounds w h x y → coords w h !! Z.to_nat (y * w + x) = Some (x, y).
Proof.
  intros [Hx Hy]. unfold coords, range.
  replace (Z.to_nat (y * w + x))
    with (Z.to_nat y * Z.to_nat w + Z.to_nat x)%nat by lia.
  apply (lookup_bind_const _ (Z.to_nat w) _ _ _ y).
  - intros y'. rewrite (length_bind_const _ 1%nat) by done.
    rewrite length_seqZ. lia.
  - rewrite lookup_seqZ_lt by lia. f_equal. lia.
  - replace (Z.to_nat x) with (Z.to_nat x * 1 + 0)%nat by lia.
    apply (lookup_bind_const _ 1%nat _ _ _ x); [done | | done].
    rewrite lookup_seqZ_lt by lia. f_equal. lia.
Qed.

Lemma image_of_shape w h f : 0 <= w → 0 <= h → shape_ok (image_of w h f).
Proof.
  intros Hw Hh. unfold shape_ok, image_of. simpl.
  by rewrite length_fmap, coords_length.
Qed.

Lemma getpixel_image_of w h f x y :
  in_bounds w h x y → getpixel (image_of w h f) x y = Some (f x y).
Proof.
  intros Hin. rewrite getpixel_in by done.
  unfold image_of, offset_of. simpl.
  by rewrite list_lookup_fmap, coords_lookup.
Qed.

Lemma pixel_at_in img x y :
  in_bounds (xsize img) (ysize img) x y → shape_ok img →
  getpixel img x y = Some (pixel_at img x y).
Proof.
  intros Hin Hs. unfold pixel_at. rewrite index_ok_in by done.
  destruct (getpixel_is_Some img x y Hs Hin) as [p Hp]. rewrite Hp.
  rewrite getpixel_in in Hp by done. by rewrite Hp.
Qed.

Lemma pixel_at_out img x y :
  index_ok img x y = false → pixel_at img x y = transparent.
Proof. unfold pixel_at. by intros ->. Qed.

Lemma opaque_at_pixel_at img x y :
  shape_ok img → opaque_at img x y = negb (alpha (pixel_at img x y) =? 0).
Proof.
  intros Hs. unfold opaque_at.
  destruct (index_ok img x y) eqn:Hok; simpl.
  - apply index_ok_true in Hok. unfold is_opaque.
    by rewrite (pixel_at_in img x y Hok Hs).
  - by rewrite pixel_at_out.
Qed.

(** ** Moving the image around *)

(** An image read through a change of coordinates [φ] that sends the
    four neighbours of a coordinate to the four neighbours of its
    image.  The outline of the new image is the outline of the old one
    read through [φ]. *)
Lemma remap_outline img out w h (φ : Z → Z → Z * Z) :
  shape_ok img → make_outline img = Some out →
  0 <= w → 0 <= h →
  (∀ u v, index_ok img (φ u v).1 (φ u v).2 = true → in_bounds w h u v) →
  (∀ (P : Z → Z → bool) u v,
     P (φ (u + -1) (v + 0)).1 (φ (u + -1) (v + 0)).2 ||
     P (φ (u + 1) (v + 0)).1 (φ (u + 1) (v + 0)).2 ||
     P (φ (u + 0) (v + -1)).1 (φ (u + 0) (v + -1)).2 ||
     P (φ (u + 0) (v + 1)).1 (φ (u + 0) (v + 1)).2 =
     P ((φ u v).1 + -1) ((φ u v).2 + 0) ||
     P ((φ u v).1 + 1) ((φ u v).2 + 0) ||
     P ((φ u v).1 + 0) ((φ u v).2 + -1) ||
     P ((φ u v).1 + 0) ((φ u v).2 + 1)) →
  make_outline (image_of w h (λ u v, pixel_at img (φ u v).1 (φ u v).2)) =
  Some (image_of w h (λ u v, pixel_at out (φ u v).1 (φ u v).2)).
Proof.
  intros Hs Hrun Hw Hh Hpre Hnb.
  destruct (make_outline_spec img Hs) as (o & Hrun' & Ho & Hwo & Hho & Hpt).
  rewrite Hrun in Hrun'. injection Hrun' as <-.
  set (img' := image_of w h (λ u v, pixel_at img (φ u v).1 (φ u v).2)).
  assert (Hs' : shape_ok img') by by apply image_of_shape.
  assert (Hop : ∀ u v, opaque_at img' u v =
                       opaque_at img (φ u v).1 (φ u v).2).
  { intros u v. rewrite (opaque_at_pixel_at img) by done.
    unfold opaque_at at 1.
    destruct (index_ok img' u v) eqn:Hok; simpl.
    - apply index_ok_true in Hok. unfold is_opaque, img'.
      by rewrite getpixel_image_of.
    - destruct (index_ok img (φ u v).1 (φ u v).2) eqn:Hok'.
      + apply Hpre, (index_ok_true img') in Hok'. congruence.
      + by rewrite pixel_at_out. }
  apply outline_unique; [done | by apply image_of_shape | done | done |].
  intros u v Hin. simpl in Hin. unfold img' at 2.
  rewrite !getpixel_image_of by done.
  destruct (index_ok img (φ u v).1 (φ u v).2) eqn:Hok.
  - assert (Hk : kept img' u v = kept img (φ u v).1 (φ u v).2).
    { rewrite !kept_opaque_at by done. rewrite !Hop.
      rewrite (Hnb (λ a b, negb (opaque_at img a b)) u v). f_equal.
      assert (Hu : opaque_at img' u v = is_opaque img' u v).
      { unfold opaque_at. by rewrite (index_ok_in img' u v Hin). }
      rewrite <- Hu, Hop. unfold opaque_at. by rewrite Hok. }
    rewrite Hk. apply index_ok_true in Hok.
    assert (Hok' : in_bounds (xsize out) (ysize out) (φ u v).1 (φ u v).2)
      by by rewrite Hwo, Hho.
    pose proof (pixel_at_in out _ _ Hok' Ho) as Hpo.
    rewrite (Hpt _ _ Hok), (pixel_at_in img _ _ Hok Hs) in Hpo.
    destruct (kept img (φ u v).1 (φ u v).2); congruence.
  - rewrite (pixel_at_out img) by done.
    rewrite (pixel_at_out out)
      by (unfold index_ok in *; by rewrite Hwo, Hho).
    by destruct (kept img' u v).
Qed.

Lemma pad_outline_eq img out :
  shape_ok img → make_outline img = Some out →
  make_outline (pad img) = Some (pad out).
Proof.
  intros Hs Hrun.
  destruct (make_outline_spec img Hs) as (o & Hrun' & _ & Hw & Hh & _).
  rewrite Hrun in Hrun'. injection Hrun' as <-.
  unfold pad. rewrite Hw, Hh. pose proof Hs as (HW & HH & _).
  apply (remap_outline img out _ _ (λ u v, (u - 1, v - 1)));
    [done | done | lia | lia | |].
  - intros u v Hok. simpl in Hok. apply index_ok_true in Hok.
    unfold in_bounds in *. lia.
  - intros P u v. simpl.
    replace (u + -1 - 1) with (u - 1 + -1) by lia.
    replace (u + 1 - 1) with (u - 1 + 1) by lia.
    replace (u + 0 - 1) with (u - 1 + 0) by lia.
    replace (v + -1 - 1) with (v - 1 + -1) by lia.
    replace (v + 1 - 1) with (v - 1 + 1) by lia.
    replace (v + 0 - 1) with (v - 1 + 0) by lia.
    done.
Qed.

Lemma mirror_outline_eq img out :
  shape_ok img → make_outline img = Some out →
  make_outline (mirror img) = Some (mirror out).
Proof.
  intros Hs Hrun.
  destruct (make_outline_spec img Hs) as (o & Hrun' & _ & Hw & Hh & _).
  rewrite Hrun in Hrun'. injection Hrun' as <-.
  unfold mirror. rewrite Hw, Hh. pose proof Hs as (HW & HH & _).
  apply (remap_outline img out _ _ (λ u v, (xsize img - 1 - u, v)));
    [done | done | lia | lia | |].
  - intros u v Hok. simpl in Hok. apply index_ok_true in Hok.
    unfold in_bounds in *. lia.
  - intros P u v. simpl.
    replace (xsize img - 1 - (u + -1)) with (xsize img - 1 - u + 1) by lia.
    replace (xsize img - 1 - (u + 1)) with (xsize img - 1 - u + -1) by lia.
    replace (xsize img - 1 - (u + 0)) with (xsize img - 1 - u + 0) by lia.
    by rewrite (orb_comm (P (xsize img - 1 - u + 1) (v + 0))).
Qed.

Lemma transpose_outline_eq img out :
  shape_ok img → make_outline img = Some out →
  make_outline (transpose img) = Some (transpose out).
Proof.
  intros Hs Hrun.
  destruct (make_outline_spec img Hs) as (o & Hrun' & _ & Hw & Hh & _).
  rewrite Hrun in Hrun'. injection Hrun' as <-.
  unfold transpose. rewrite Hw, Hh. pose proof Hs as (HW & HH & _).
  apply (remap_outline img out _ _ (λ u v, (v, u)));
    [done | done | lia | lia | |].
  - intros u v Hok. simpl in Hok. apply index_ok_true in Hok.
    unfold in_bounds in *. lia.
  - intros P u v. simpl.
    destruct (P (v + 0) (u + -1)), (P (v + 0) (u + 1)),
      (P (v + -1) (u + 0)), (P (v + 1) (u + 0)); done.
Qed.

Lemma transpose_shape img : shape_ok img → shape_ok (transpose img).
Proof. intros (Hw & Hh & _). by apply image_of_shape. Qed.

Example pad_single_pixel : pad (mkImage 1 1 [red_px]) = dot3.
Proof. reflexivity. Qed.

Example mirror_ell :
  mirror ell =
  mkImage 3 4 [transparent; transparent; red_px;
               transparent; transparent; red_px;
               red_px; red_px; red_px;
               red_px; red_px; red_px].
Proof. reflexivity. Qed.

Example transpose_ell :
  transpose ell =
  mkImage 4 3 [red_px; red_px; red_px; red_px;
               transparent; transparent; red_px; red_px;
               transparent; transparent; red_px; red_px].
Proof. reflexivity. Qed.

Example rotate_ell :
  rotate ell =
  mkImage 4 3 [red_px; red_px; red_px; red_px;
               red_px; red_px; transparent; transparent;
               red_px; red_px; transparent; transparent].
Proof. reflexivity. Qed.

(** X11: the edge of the image counts exactly like a transparent
    pixel: putting a transparent frame around the source and extracting
    the outline gives the outline of the source with the same frame
    around it. *)
Theorem pad_outline img :
  valid_image img = true →
  ∃ out, make_outline img = Some out ∧ make_outline (pad img) = Some (pad out).
Proof.
  intros Hv. pose proof (valid_image_shape img Hv) as Hs.
  destruct (make_outline_spec img Hs) as (out & Hrun & _).
  exists out. split; [done | by apply pad_outline_eq].
Qed.

Lemma pad_outline_witness :
  ∃ out, make_outline solid3 = Some out ∧
         make_outline (pad solid3) = Some (pad out).
Proof. exact (pad_outline solid3 eq_refl). Defined.

(** X12: mirroring the source left to right mirrors the outline. *)
Theorem mirror_outline img :
  valid_image img = true →
  ∃ out, make_outline img = Some out ∧
         make_outline (mirror img) = Some (mirror out).
Proof.
  intros Hv. pose proof (valid_image_shape img Hv) as Hs.
  destruct (make_outline_spec img Hs) as (out & Hrun & _).
  exists out. split; [done | by apply mirror_outline_eq].
Qed.

Lemma mirror_outline_witness :
  ∃ out, make_outline ell = Some out ∧
         make_outline (mirror ell) = Some (mirror out).
Proof. exact (mirror_outline ell eq_refl). Defined.

(** X13: exchanging rows and columns of the source exchanges them in
    the outline. *)
Theorem transpose_outline img :
  valid_image img = true →
  ∃ out, make_outline img = Some out ∧
         make_outline (transpose img) = Some (transpose out).
Proof.
  intros Hv. pose proof (valid_image_shape img Hv) as Hs.
  destruct (make_outline_spec img Hs) as (out & Hrun & _).
  exists out. split; [done | by apply transpose_outline_eq].
Qed.

Lemma transpose_outline_witness :
  ∃ out, make_outline ell = Some out ∧
         make_outline (transpose ell) = Some (transpose out).
Proof. exact (transpose_outline ell eq_refl). Defined.

(** X14: turning the source by a quarter turn turns the outline by a
    quarter turn, so a tile may be outlined before or after it is
    rotated. *)
Theorem rotate_outline img :
  valid_image img = true →
  ∃ out, make_outline img = Some out ∧
         make_outline (rotate img) = Some (rotate out).
Proof.
  intros Hv. pose proof (valid_image_shape img Hv) as Hs.
  destruct (make_outline_spec img Hs) as (out & Hrun & _).
  exists out. split; [done |]. unfold rotate.
  apply mirror_outline_eq; [by apply transpose_shape |].
  by apply transpose_outline_eq.
Qed.

Lemma rotate_outline_witness :
  ∃ out, make_outline ell = Some out ∧
         make_outline (rotate ell) = Some (rotate out).
Proof. exact (rotate_outline ell eq_refl). Defined.
